(** * journalr: journal record store, synchronisation and derived analytics

A shallow embedding of the TypeScript sources
- [src/dataStore.ts]: the Sync Coordinator ([getEntry], [saveEntry],
  [getAllEntries]) and [countWords];
- [src/index.tsx]: [analyzeText], [calculateStreaks], the history logic of
  [JournalView], [WordCloud] and [getDominantCategory].

Conventions of the embedding.
- A JavaScript string is a Rocq [string]; every [ascii] is read as one
  UTF-16 code unit below 256 (Latin-1).  The character classes of the
  regular expressions, of [trim] and of [toLowerCase] are restricted to
  that range.
- A JavaScript object or [Map] whose iteration order is observable is an
  association list in insertion order; [localStorage] and the result of
  [getAllEntries], which are only looked up, are [gmap]s.
- [Date.now()], the host time zone and the reachability of the remote
  store are explicit arguments. *)

From stdpp Require Import base numbers gmap strings list fin_maps.
From Stdlib Require Import ZArith Ascii String Lia QArith Qcanon Sorted.

Local Open Scope string_scope.
Local Open Scope nat_scope.
Local Open Scope list_scope.

(** * Part I: the program *)

(** ** JavaScript string primitives *)

Module Js.

(** [!!s] for a string: only the empty string is falsy. *)
Definition truthy (s : string) : bool :=
  match s with
  | "" => false
  | String _ _ => true
  end.

(** [x || ''] for [x : string | null]. *)
Definition orEmpty (x : option string) : string := default "" x.

(** White space as matched by [\s] and stripped by [trim()]:
    TAB, LF, VT, FF, CR, SPACE and NBSP. *)
Definition isWhiteSpace (c : ascii) : bool :=
  let n := nat_of_ascii c in
  (((9 <=? n) && (n <=? 13)) || (n =? 32) || (n =? 160))%nat.

(** [\w] is [[A-Za-z0-9_]]. *)
Definition isWordChar (c : ascii) : bool :=
  let n := nat_of_ascii c in
  (((48 <=? n) && (n <=? 57)) || ((65 <=? n) && (n <=? 90))
   || (n =? 95) || ((97 <=? n) && (n <=? 122)))%nat.

(** [[a-z]] *)
Definition isLowerAlpha (c : ascii) : bool :=
  let n := nat_of_ascii c in ((97 <=? n) && (n <=? 122))%nat.

Definition toLowerCaseChar (c : ascii) : ascii :=
  let n := nat_of_ascii c in
  if (((65 <=? n) && (n <=? 90))
      || ((192 <=? n) && (n <=? 222) && negb (n =? 215)))%nat
  then ascii_of_nat (n + 32)
  else c.

Fixpoint toLowerCase (s : string) : string :=
  match s with
  | "" => ""
  | String c r => String (toLowerCaseChar c) (toLowerCase r)
  end.

Fixpoint trimStart (s : string) : string :=
  match s with
  | "" => ""
  | String c r => if isWhiteSpace c then trimStart r else s
  end.

Definition trimEnd (s : string) : string :=
  String.rev (trimStart (String.rev s)).

Definition trim (s : string) : string := trimEnd (trimStart s).

(** [s.split(/\s+/)]: the fields between maximal runs of white space.
    [in_sep] records that the previous character was a separator, so that
    a run of separators closes one field only.  A leading or a trailing
    separator yields an empty field, and the empty string yields [[""]]. *)
Fixpoint split_ws_from (in_sep : bool) (cur : string) (s : string)
  : list string :=
  match s with
  | "" => [cur]
  | String c r =>
      if isWhiteSpace c
      then if in_sep
           then split_ws_from true cur r
           else cur :: split_ws_from true "" r
      else split_ws_from false (cur +:+ String c "") r
  end.

Definition split_ws (s : string) : list string := split_ws_from false "" s.

Fixpoint drop (n : nat) (s : string) : string :=
  match n, s with
  | O, _ => s
  | S _, "" => ""
  | S k, String _ r => drop k r
  end.

(** [s.startsWith(p)] *)
Fixpoint startsWith (s p : string) {struct p} : bool :=
  match p with
  | "" => true
  | String a p' =>
      match s with
      | "" => false
      | String b s' => if Ascii.eqb a b then startsWith s' p' else false
      end
  end.

(** [s.replace(pat, rep)] with a string pattern: only the first
    occurrence is replaced. *)
Fixpoint replace (pat rep s : string) : string :=
  if startsWith s pat
  then rep +:+ drop (String.length pat) s
  else match s with
       | "" => ""
       | String c r => String c (replace pat rep r)
       end.

End Js.

(** ** src/dataStore.ts *)

(** [countWords]: the number of non-empty fields of the trimmed text. *)
Definition countWords (text : string) : nat :=
  if negb (Js.truthy text) then 0
  else List.length (List.filter Js.truthy (Js.split_ws (Js.trim text))).

(** [countWords] as src/index.tsx first writes it (lines 9 to 15), with
    the extra test of the trimmed text. *)
Definition countWordsChecked (text : string) : nat :=
  if negb (Js.truthy text) then 0
  else
    let trimmed := Js.trim text in
    if negb (Js.truthy trimmed) then 0
    else List.length (List.filter Js.truthy (Js.split_ws trimmed)).

(** The number of places where a word starts: a character that is not
    white space, at the start of the text or after white space.  [inWord]
    says that the previous character was not white space. *)
Fixpoint wordStarts (inWord : bool) (s : string) : nat :=
  match s with
  | "" => 0
  | String c r =>
      if Js.isWhiteSpace c then wordStarts false r
      else (if inWord then 0 else 1) + wordStarts true r
  end.

Fixpoint allWhiteSpace (s : string) : bool :=
  match s with
  | "" => true
  | String c r => Js.isWhiteSpace c && allWhiteSpace r
  end.


(** The Supabase client is an external collaborator.  Its table
    [journal_entries] is modelled as a map from [user_email] to a map from
    [date_key] to the remaining columns, which is what the conflict target
    [user_email,date_key] of the upsert makes of it.  [net] says whether
    the request reaches the service; when it does not, the reply carries an
    error and the table is untouched. *)
Module Supabase.

Record Row := {
  content : string;
  word_count : nat;
  updated_at : string
}.

Abbreviation Table := (gmap string (gmap string Row)).

(** [{ data, error }]: either the data or an error with its code. *)
Inductive Reply (A : Type) :=
  | Ok (data : A)
  | Err (code : string).
Arguments Ok {A} data.
Arguments Err {A} code.

(** The code PostgREST gives to [.single()] when no row matches. *)
Definition PGRST116 : string := "PGRST116".
Definition UNREACHABLE : string := "".

Definition rowsOf (t : Table) (email : string) : gmap string Row :=
  default ∅ (t !! email).

(** [.select('content').eq('user_email', email).eq('date_key', dateKey).single()] *)
Definition select_single (net : bool) (t : Table) (email dateKey : string)
  : Reply string :=
  if net
  then match rowsOf t email !! dateKey with
       | Some r => Ok (content r)
       | None => Err PGRST116
       end
  else Err UNREACHABLE.

(** [.upsert(row, { onConflict: 'user_email,date_key' })] *)
Definition upsert (net : bool) (t : Table) (email dateKey : string) (r : Row)
  : Table * option string :=
  if net
  then (<[email := <[dateKey := r]> (rowsOf t email)]> t, None)
  else (t, Some UNREACHABLE).

(** [.select('date_key, word_count').eq('user_email', email)] *)
Definition select_all (net : bool) (t : Table) (email : string)
  : Reply (list (string * nat)) :=
  if net
  then Ok (prod_map id word_count <$> map_to_list (rowsOf t email))
  else Err UNREACHABLE.

End Supabase.

Module DataStore.
Import Supabase.

Definition USER_EMAIL_KEY : string := "userEmail".
Definition IS_LOGGED_IN_KEY : string := "isLoggedIn".
Definition LOCAL_ENTRY_PREFIX : string := "local-journal-entry-".

(** What the caller of an [async] method observes: the promise resolves
    with a value or rejects with an [Error]. *)
Inductive Outcome (A : Type) :=
  | Returned (a : A)
  | Thrown (message : string).
Arguments Returned {A} a.
Arguments Thrown {A} message.

Definition isThrown {A} (o : Outcome A) : bool :=
  match o with
  | Thrown _ => true
  | Returned _ => false
  end.

Record World := {
  localStorage : gmap string string;
  remote : Table
}.

(** [`${LOCAL_ENTRY_PREFIX}${dateKey}`] *)
Definition entryKey (dateKey : string) : string :=
  LOCAL_ENTRY_PREFIX +:+ dateKey.

(** [const email = localStorage.getItem(USER_EMAIL_KEY); if (!email) ...]:
    [None] when the item is missing or empty. *)
Definition currentEmail (ls : gmap string string) : option string :=
  match ls !! USER_EMAIL_KEY with
  | Some email => if Js.truthy email then Some email else None
  | None => None
  end.

Definition login (email : string) (w : World) : World :=
  {| localStorage :=
       <[IS_LOGGED_IN_KEY := "true"]> (<[USER_EMAIL_KEY := email]> (localStorage w));
     remote := remote w |}.

Definition logout (w : World) : World :=
  {| localStorage :=
       delete IS_LOGGED_IN_KEY (delete USER_EMAIL_KEY (localStorage w));
     remote := remote w |}.

Definition getEntry (net : bool) (dateKey : string) (w : World)
  : Outcome (option string) * World :=
  let ls := localStorage w in
  match currentEmail ls with
  | None => (Returned None, w)
  | Some email =>
      let cache content :=
        (Returned (Some content),
         {| localStorage := <[entryKey dateKey := content]> ls;
            remote := remote w |}) in
      match select_single net (remote w) email dateKey with
      | Ok data => cache (Js.orEmpty (Some data))
      | Err code =>
          if String.eqb code PGRST116
          then cache (Js.orEmpty None)
          else (Returned (Some (Js.orEmpty (ls !! entryKey dateKey))), w)
      end
  end.

(** [now] is [new Date().toISOString()]. *)
Definition saveEntry (net : bool) (now : string) (dateKey content : string)
  (w : World) : Outcome unit * World :=
  let ls := localStorage w in
  match currentEmail ls with
  | None => (Thrown "Not logged in", w)
  | Some email =>
      let word_count := countWords content in
      let ls' := <[entryKey dateKey := content]> ls in
      let '(t', _) :=
        upsert net (remote w) email dateKey
          {| Supabase.content := content;
             Supabase.word_count := word_count;
             Supabase.updated_at := now |} in
      (Returned (), {| localStorage := ls'; remote := t' |})
  end.

(** [Object.keys(localStorage).filter(key => key.startsWith(LOCAL_ENTRY_PREFIX))] *)
Definition localKeys (ls : gmap string string) : list string :=
  List.filter (λ key, Js.startsWith key LOCAL_ENTRY_PREFIX) (map_to_list ls).*1.

(** The body of the [forEach] of the [try] branch. *)
Definition mergeMissing (ls : gmap string string) (map : gmap string nat)
  (key : string) : gmap string nat :=
  let dateKey := Js.replace LOCAL_ENTRY_PREFIX "" key in
  match map !! dateKey with
  | Some _ => map
  | None =>
      let content := Js.orEmpty (ls !! key) in
      let wordCount := countWords content in
      if (0 <? wordCount)%nat then <[dateKey := wordCount]> map else map
  end.

(** The body of the [forEach] of the [catch] branch. *)
Definition addLocal (ls : gmap string string) (map : gmap string nat)
  (key : string) : gmap string nat :=
  let dateKey := Js.replace LOCAL_ENTRY_PREFIX "" key in
  let content := Js.orEmpty (ls !! key) in
  let wordCount := countWords content in
  if (0 <? wordCount)%nat then <[dateKey := wordCount]> map else map.

Definition getAllEntries (net : bool) (w : World)
  : Outcome (gmap string nat) :=
  let ls := localStorage w in
  let map : gmap string nat := ∅ in
  match currentEmail ls with
  | None => Returned map
  | Some email =>
      match select_all net (remote w) email with
      | Ok data =>
          let map := foldl (λ m r, <[r.1 := r.2]> m) map data in
          Returned (foldl (mergeMissing ls) map (localKeys ls))
      | Err _ =>
          Returned (foldl (addLocal ls) map (localKeys ls))
      end
  end.

(** The word count the local cache alone gives to a date key: that of the
    cached content when it is positive. *)
Definition localCount (ls : gmap string string) (dateKey : string)
  : option nat :=
  match ls !! entryKey dateKey with
  | Some content =>
      if (0 <? countWords content)%nat then Some (countWords content) else None
  | None => None
  end.

(** Keys that are entry keys of items of the cache. *)
Definition cachedKeys (ls : gmap string string) (keys : list string) : Prop :=
  ∀ key, key ∈ keys → ∃ d, key = entryKey d ∧ is_Some (ls !! key).

(** A logged-in session with an empty cache and an empty remote table. *)
Definition fresh (email : string) : World :=
  login email {| localStorage := ∅; remote := ∅ |}.

(** No session at all. *)
Definition anonymous : World := {| localStorage := ∅; remote := ∅ |}.

(** A session in the middle of its life: the remote table has a row for
    2025-01-01 whose cached copy is an older, shorter text; the entry of
    2025-01-02 was written while the remote store was unreachable and is in
    the cache only; the cached text of 2025-01-03 is blank. *)
Definition midlife : World :=
  {| localStorage :=
       <[entryKey "2025-01-01" := "an older draft"]>
         (<[entryKey "2025-01-02" := "written while offline"]>
            (<[entryKey "2025-01-03" := "   "]>
               (localStorage (fresh "ann@example.org"))));
     remote :=
       {[ "ann@example.org" :=
            {[ "2025-01-01" :=
                 {| Supabase.content := "the text that was synced";
                    Supabase.word_count := 5;
                    Supabase.updated_at := "2025-01-01T10:00:00.000Z" |} ]} ]}
  |}.


(** [isLoggedIn]: [!!localStorage.getItem(IS_LOGGED_IN_KEY)] *)
Definition isLoggedIn (w : World) : bool :=
  match localStorage w !! IS_LOGGED_IN_KEY with
  | Some flag => Js.truthy flag
  | None => false
  end.

End DataStore.

(** ** src/index.tsx: the text analyzer *)

Module Analyzer.

Definition ANALYSIS_KEYWORDS : list (string * list (string * list string)) :=
  [
   ("feeling",
    [
     ("Anxiety / Fear",
       [
        "anxious"; "anxiety"; "fear"; "scared"; "worry"; "worried";
        "nervous"; "stress"; "stressful"; "dread"; "afraid"; "panic";
        "panicked"; "overwhelmed"; "tense"; "unease"; "terror"; "horror";
        "pressure"; "threat" ]);
     ("Joy / Happiness",
       [
        "happy"; "joy"; "joyful"; "cheerful"; "delighted"; "ecstatic";
        "glad"; "content"; "pleased"; "excited"; "amazing"; "wonderful";
        "fantastic"; "great"; "good"; "love"; "blessed"; "grateful";
        "thankful"; "vibrant" ]);
     ("Sadness / Grief",
       [
        "sad"; "sadness"; "grief"; "cry"; "cried"; "tears"; "unhappy";
        "miserable"; "depressed"; "dejected"; "heartbroken"; "despair";
        "lonely"; "alone"; "empty"; "down"; "somber"; "regret"; "hurt";
        "pain" ]);
     ("Anger / Frustration",
       [
        "angry"; "anger"; "mad"; "furious"; "rage"; "frustrated";
        "annoyed"; "irritated"; "pissed"; "livid"; "resent"; "bitter";
        "outrage"; "fury"; "hate"; "agitated"; "exasperated" ]);
     ("Love / Affection",
       [
        "love"; "loving"; "care"; "caring"; "adore"; "cherish";
        "affection"; "fond"; "passion"; "passionate"; "heartfelt";
        "tender"; "warm"; "connected"; "appreciate"; "relationship";
        "friend"; "family" ]) ]);
   ("topic",
    [
     ("Work / Career",
       [
        "work"; "job"; "career"; "office"; "company"; "project"; "task";
        "meeting"; "email"; "boss"; "colleague"; "coworker"; "deadline";
        "presentation"; "salary"; "promotion"; "professional"; "corporate";
        "business" ]);
     ("Family / Home",
       [
        "family"; "home"; "mom"; "dad"; "parent"; "sister"; "brother";
        "sibling"; "kids"; "children"; "son"; "daughter"; "husband";
        "wife"; "partner"; "house"; "apartment"; "relatives" ]);
     ("Health / Wellness",
       [
        "health"; "healthy"; "sick"; "ill"; "doctor"; "hospital";
        "medicine"; "pain"; "body"; "mind"; "fitness"; "exercise"; "gym";
        "food"; "diet"; "sleep"; "tired"; "energy"; "wellness";
        "mental health" ]);
     ("Self / Personal Growth",
       [
        "i"; "me"; "my"; "myself"; "feel"; "think"; "believe"; "learn";
        "grow"; "improve"; "self"; "goal"; "habit"; "journal"; "read";
        "understand"; "reflect"; "introspection"; "mindset"; "future" ]) ]);
   ("mindset",
    [
     ("Positive",
       [
        "yes"; "can"; "will"; "great"; "good"; "wonderful"; "amazing";
        "success"; "achieve"; "accomplished"; "proud"; "confident";
        "hopeful"; "optimistic"; "possible"; "certain"; "definite";
        "solution"; "resolve"; "clear" ]);
     ("Negative",
       [
        "no"; "not"; "can't"; "won't"; "bad"; "terrible"; "awful";
        "failure"; "fail"; "mistake"; "wrong"; "doubt"; "regret";
        "hopeless"; "pessimistic"; "impossible"; "problem"; "issue";
        "difficult"; "hard" ]);
     ("Certain",
       [
        "know"; "knew"; "certainly"; "definitely"; "absolutely"; "will";
        "is"; "are"; "was"; "always"; "fact"; "confirm"; "proven";
        "understand"; "understood"; "realize" ]);
     ("Uncertain",
       [
        "maybe"; "perhaps"; "wonder"; "if"; "could"; "might"; "should";
        "possibly"; "guess"; "assume"; "suppose"; "unsure"; "unclear";
        "question"; "seem"; "appear" ]) ]);
   ("time",
    [
     ("Past",
       [
        "yesterday"; "before"; "ago"; "last"; "past"; "remembered";
        "recalled"; "reflected"; "was"; "were"; "had"; "did"; "used to";
        "previously"; "back then"; "history" ]);
     ("Present",
       [
        "today"; "now"; "currently"; "present"; "is"; "am"; "are"; "doing";
        "feeling"; "thinking"; "at the moment"; "this"; "here" ]);
     ("Future",
       [
        "tomorrow"; "future"; "next"; "soon"; "will"; "plan"; "planning";
        "goal"; "hope"; "wish"; "anticipate"; "expect"; "looking forward";
        "going to"; "someday" ]) ]);
   ("perspective",
    [
     ("I (Self-focused)",
       [
        "i"; "me"; "my"; "mine"; "myself" ]);
     ("We (Group-focused)",
       [
        "we"; "us"; "our"; "ours"; "ourselves" ]);
     ("Them (Other-focused)",
       [
        "he"; "she"; "they"; "him"; "her"; "them"; "his"; "hers"; "theirs";
        "that person"; "people" ]) ])
  ].

(** [AnalysisResult]: category, then subcategory, then count, in the
    insertion order of the keys. *)
Definition AnalysisResult : Type := list (string * list (string * nat)).

Definition isWord (c : option ascii) : bool :=
  match c with
  | Some a => Js.isWordChar a
  | None => false
  end.

(** [\b] holds between two neighbours (the ends of the input count as
    non-word characters) when exactly one of them is a word character. *)
Definition wordBoundary (prev next : option ascii) : bool :=
  xorb (isWord prev) (isWord next).

Definition head (s : string) : option ascii :=
  match s with
  | "" => None
  | String c _ => Some c
  end.

Fixpoint last (prev : option ascii) (s : string) : option ascii :=
  match s with
  | "" => prev
  | String c r => last (Some c) r
  end.

(** Does [\bkeyword\b] match at the head of [s], [prev] being the
    character before it? *)
Definition matchesAt (prev : option ascii) (keyword s : string) : bool :=
  wordBoundary prev (head s)
  && Js.startsWith s keyword
  && wordBoundary (last prev keyword) (head (Js.drop (String.length keyword) s)).

(** [s.match(new RegExp(`\\b${keyword}\\b`, 'g'))] counted: the matches
    are searched from left to right and the search resumes after each
    match, which [skip] does.  The keywords of the lexicon are non-empty and
    hold no character that is special in a regular expression. *)
Fixpoint countMatchesFrom (keyword : string) (prev : option ascii)
  (skip : nat) (s : string) : nat :=
  match s with
  | "" => 0
  | String c r =>
      match skip with
      | S k => countMatchesFrom keyword (Some c) k r
      | O =>
          if matchesAt prev keyword s
          then S (countMatchesFrom keyword (Some c) (String.length keyword - 1) r)
          else countMatchesFrom keyword (Some c) 0 r
      end
  end.

Definition countMatches (keyword s : string) : nat :=
  countMatchesFrom keyword None 0 s.

(** The unused [words] of the source is left out. *)
Definition analyzeText (text : string) : AnalysisResult :=
  let lowered := Js.toLowerCase text in
  List.map
    (λ '(category, subCategories),
       (category,
        List.map
          (λ '(subCategory, keywords),
             (subCategory,
              foldl (λ count keyword, count + countMatches keyword lowered)
                0 keywords))
          subCategories))
    ANALYSIS_KEYWORDS.

(** [obj[key]] on an association list. *)
Fixpoint get {A : Type} (key : string) (obj : list (string * A)) : option A :=
  match obj with
  | [] => None
  | (k, v) :: rest => if String.eqb k key then Some v else get key rest
  end.

(** [results[category][subCategory]] *)
Definition count (results : AnalysisResult) (category subCategory : string)
  : option nat :=
  match get category results with
  | Some subs => get subCategory subs
  | None => None
  end.

(** The callback of [entries.reduce]: [(a, b) => a[1] > b[1] ? a : b]. *)
Definition pick (a b : string * nat) : string * nat :=
  if b.2 <? a.2 then a else b.

(** [getDominantCategory], on [Object.entries(categoryData)].  [reduce]
    without an initial value starts from the first entry; it is not reached
    on the empty array. *)
Definition getDominantCategory (categoryData : list (string * nat)) : string :=
  let entries := categoryData in
  if (List.length entries =? 0)%nat || forallb (λ e, (e.2 =? 0)%nat) entries
  then "N/A"
  else match entries with
       | [] => "N/A"
       | first :: rest =>
           (foldl pick first rest).1
       end.

End Analyzer.

(** The selection as the specification words it, for comparison with
    [Analyzer.getDominantCategory]: among the entries with the greatest
    count, the first one in order. *)
Module DominantSpec.

Fixpoint firstGreatest (best : string * nat) (rest : list (string * nat))
  : string * nat :=
  match rest with
  | [] => best
  | e :: rest' =>
      firstGreatest (if (best.2 <? e.2)%nat then e else best) rest'
  end.

Definition dominant (entries : list (string * nat)) : string :=
  match entries with
  | [] => "N/A"
  | first :: rest =>
      if forallb (λ e, (e.2 =? 0)%nat) entries then "N/A"
      else (firstGreatest first rest).1
  end.

End DominantSpec.

(** ** src/index.tsx: the local data store and the history of word counts *)

Module Journal.

Record Sample := {
  timestamp : Z;
  wordCount : nat
}.

(** An item of [localStorage]: the text of an entry, or the JSON text of a
    history, kept as the array it encodes ([JSON.parse] undoes
    [JSON.stringify] on arrays of samples). *)
Inductive Item :=
  | Text (content : string)
  | Json (history : list Sample).

Abbreviation Storage := (gmap string Item).

(** [`journal-entry-${dateKey}`] and [`journal-history-${dateKey}`] *)
Definition entryKey (dateKey : string) : string := "journal-entry-" +:+ dateKey.
Definition historyKey (dateKey : string) : string := "journal-history-" +:+ dateKey.

(** [dataStore.saveEntry] *)
Definition saveEntry (dateKey content : string) (ls : Storage) : Storage :=
  let wordCount := countWords content in
  if 0 <? wordCount
  then <[entryKey dateKey := Text content]> ls
  else delete (entryKey dateKey) ls.

(** [dataStore.saveWordCountHistory] *)
Definition saveWordCountHistory (dateKey : string) (history : list Sample)
  (ls : Storage) : Storage :=
  <[historyKey dateKey := Json history]> ls.

(** [dataStore.getWordCountHistory]: [data ? JSON.parse(data) : null].
    A history item is read as the array it encodes.  A text item stands for
    text that is not JSON: [JSON.parse] throws a [SyntaxError] on it, unless
    the text is empty, which is falsy and gives [null]. *)
Definition getWordCountHistory (dateKey : string) (ls : Storage)
  : DataStore.Outcome (option (list Sample)) :=
  match ls !! historyKey dateKey with
  | None => DataStore.Returned None
  | Some (Json history) => DataStore.Returned (Some history)
  | Some (Text data) =>
      if Js.truthy data
      then DataStore.Thrown "SyntaxError"
      else DataStore.Returned None
  end.

(** The read of the history of a date key does not throw. *)
Definition readable (dateKey : string) (ls : Storage) : Prop :=
  DataStore.isThrown (getWordCountHistory dateKey ls) = false.

(** The state [JournalView.saveEntry] acts on: [localStorage], and the
    [entries] and [status] states of the component. *)
Record View := {
  storage : Storage;
  entries : gmap string nat;
  status : string
}.

(** [history.length > 0 ? history[history.length - 1] : null] *)
Definition lastPoint (history : list Sample) : option Sample :=
  List.last (Some <$> history) None.

(** The body of the [try] of the [saveEntry] callback after
    [dataStore.saveEntry], on the storage that call left: the storage it
    leaves, or the exception that reading the history threw.  [now1] and
    [now2] are what [Date.now()] returns at its first and at its second
    call site. *)
Definition recordHistory (now1 now2 : Z) (dateKey : string)
  (newWordCount : nat) (ls : Storage) : DataStore.Outcome Storage :=
  if 0 <? newWordCount
  then
    match getWordCountHistory dateKey ls with
    | DataStore.Thrown error => DataStore.Thrown error
    | DataStore.Returned data =>
        let history := default [] data in
        let last := lastPoint history in
        let history :=
          if List.length history =? 0
          then history ++ [{| timestamp := (now1 - 1000)%Z; wordCount := 0 |}]
          else history in
        if match last with
           | None => true
           | Some p => negb (wordCount p =? newWordCount)
           end
        then
          let history :=
            history ++ [{| timestamp := now2; wordCount := newWordCount |}] in
          DataStore.Returned (saveWordCountHistory dateKey history ls)
        else DataStore.Returned ls
    end
  else DataStore.Returned (saveWordCountHistory dateKey [] ls).

(** The [saveEntry] callback of [JournalView], from the date key on.  An
    exception thrown inside the [try] is caught: what was stored before it
    stays, [entries] is not updated and the status is 'Save failed'.
    Otherwise the status is still 'Saving...' when the callback returns
    (a timer sets it to 'Saved' later). *)
Definition JournalView_saveEntry (now1 now2 : Z) (dateKey newText : string)
  (v : View) : View :=
  let ls := saveEntry dateKey newText (storage v) in
  let newWordCount := countWords newText in
  match recordHistory now1 now2 dateKey newWordCount ls with
  | DataStore.Returned ls' =>
      {| storage := ls';
         entries :=
           if 0 <? newWordCount
           then <[dateKey := newWordCount]> (entries v)
           else delete dateKey (entries v);
         status := "Saving..." |}
  | DataStore.Thrown _ =>
      {| storage := ls; entries := entries v; status := "Save failed" |}
  end.

(** The series of a date key as the callback reads it: [await
    dataStore.getWordCountHistory(dateKey) || []] (and nothing when the
    read throws). *)
Definition series (dateKey : string) (v : View) : list Sample :=
  match getWordCountHistory dateKey (storage v) with
  | DataStore.Returned data => default [] data
  | DataStore.Thrown _ => []
  end.

(** No two consecutive samples share a word count. *)
Fixpoint noRepeat (history : list Sample) : Prop :=
  match history with
  | [] => True
  | p :: rest =>
      match rest with
      | [] => True
      | q :: _ => wordCount p ≠ wordCount q ∧ noRepeat rest
      end
  end.


(** The rest of the local [dataStore] of src/index.tsx.  An item read as
    text is its content, or for a history item its JSON text, whatever
    [JSON.stringify] makes of it ([stringify]). *)
Section LocalStore.
Variable stringify : list Sample → string.

Definition itemText (item : Item) : string :=
  match item with
  | Text content => content
  | Json history => stringify history
  end.

(** [localStorage.getItem(key)] *)
Definition getItem (key : string) (ls : Storage) : option string :=
  itemText <$> ls !! key.

(** [dataStore.getEntry] *)
Definition getEntry (dateKey : string) (ls : Storage) : option string :=
  getItem (entryKey dateKey) ls.

(** [Object.keys(localStorage).filter(key => key.startsWith('journal-entry-'))] *)
Definition allKeys (ls : Storage) : list string :=
  List.filter (λ key, Js.startsWith key "journal-entry-") (map_to_list ls).*1.

(** The body of the [forEach] of [getAllEntries]. *)
Definition addEntry (ls : Storage) (allEntryData : gmap string nat)
  (key : string) : gmap string nat :=
  let content := Js.orEmpty (getItem key ls) in
  let wordCount := countWords content in
  if 0 <? wordCount
  then <[Js.replace "journal-entry-" "" key := wordCount]> allEntryData
  else allEntryData.

(** [dataStore.getAllEntries] *)
Definition getAllEntries (ls : Storage) : gmap string nat :=
  foldl (addEntry ls) ∅ (allKeys ls).

(** The body of the [forEach] of [getAllEntriesWithContent]. *)
Definition addContent (ls : Storage) (allEntryData : gmap string string)
  (key : string) : gmap string string :=
  let content := Js.orEmpty (getItem key ls) in
  if Js.truthy content
  then <[Js.replace "journal-entry-" "" key := content]> allEntryData
  else allEntryData.

(** [dataStore.getAllEntriesWithContent] *)
Definition getAllEntriesWithContent (ls : Storage) : gmap string string :=
  foldl (addContent ls) ∅ (allKeys ls).

(** What the store alone gives to a date key. *)
Definition storedCount (ls : Storage) (d : string) : option nat :=
  match ls !! entryKey d with
  | Some item =>
      if 0 <? countWords (itemText item)
      then Some (countWords (itemText item))
      else None
  | None => None
  end.

Definition storedContent (ls : Storage) (d : string) : option string :=
  match ls !! entryKey d with
  | Some item =>
      if Js.truthy (itemText item)
      then Some (itemText item)
      else None
  | None => None
  end.

End LocalStore.

(** Timestamps never decrease along a series. *)
Fixpoint chronological (history : list Sample) : Prop :=
  match history with
  | [] => True
  | p :: rest =>
      match rest with
      | [] => True
      | q :: _ => (timestamp p <= timestamp q)%Z ∧ chronological rest
      end
  end.


(** A series as the saves of the application leave it: chronological, and
    either empty or starting with a zero sample followed by at least one
    more sample. *)
Definition wellFormed (history : list Sample) : Prop :=
  chronological history ∧
  (history = [] ∨
   (2 ≤ List.length history ∧ wordCount <$> List.head history = Some 0)).


(** A view after some writing: the entry of 2025-01-01 has two words and
    its series holds the zero sample and the sample of the two words. *)
Definition written : View :=
  {| storage :=
       <[entryKey "2025-01-01" := Text "hello world"]>
         {[ historyKey "2025-01-01" :=
              Json [{| timestamp := 4000; wordCount := 0 |};
                    {| timestamp := 6000; wordCount := 2 |}] ]};
     entries := {[ "2025-01-01" := 2 ]};
     status := "Ready" |}.

End Journal.

(** ** src/index.tsx: the word cloud *)

Module WordCloud.
Import Analyzer.

Definition STOP_WORDS : list string :=
  ["a"; "an"; "and"; "are"; "as"; "at"; "be"; "but"; "by"; "for"; "has";
   "have"; "in"; "is"; "it"; "its"; "of"; "on"; "that"; "the"; "to"; "was";
   "were"; "with"].

(** [STOP_WORDS.has(word)] *)
Definition isStopWord (word : string) : bool :=
  existsb (String.eqb word) STOP_WORDS.

(** The longest prefix of [[a-z]] characters, and what follows it. *)
Fixpoint takeLower (s : string) : string * string :=
  match s with
  | "" => ("", "")
  | String c r =>
      if Js.isLowerAlpha c
      then let '(run, rest) := takeLower r in (String c run, rest)
      else ("", s)
  end.

(** Does [\b[a-z]{3,}\b] match at the head of [s], [prev] being the
    character before it?  The quantifier is greedy and takes the whole run
    of letters; giving letters back cannot help, since a shorter match would
    end between two letters, where [\b] fails. *)
Definition matchAt (prev : option ascii) (s : string) : option string :=
  let '(run, rest) := takeLower s in
  if wordBoundary prev (head s)
     && (3 <=? String.length run)
     && wordBoundary (last prev run) (head rest)
  then Some run
  else None.

(** [s.match(/\b[a-z]{3,}\b/g) || []]: the matches from left to right, the
    search resuming after each match ([skip]). *)
Fixpoint matchAllFrom (prev : option ascii) (skip : nat) (s : string)
  : list string :=
  match s with
  | "" => []
  | String c r =>
      match skip with
      | S k => matchAllFrom (Some c) k r
      | O =>
          match matchAt prev s with
          | Some run => run :: matchAllFrom (Some c) (String.length run - 1) r
          | None => matchAllFrom (Some c) 0 r
          end
      end
  end.

Definition matchAll (s : string) : list string := matchAllFrom None 0 s.

(** [wordCounts.set(word, (wordCounts.get(word) || 0) + 1)] on a [Map],
    which keeps its keys in insertion order: a known word keeps its place,
    a new word goes last. *)
Fixpoint bump (word : string) (wordCounts : list (string * nat))
  : list (string * nat) :=
  match wordCounts with
  | [] => [(word, 0 + 1)]
  | (w, n) :: rest =>
      if String.eqb w word then (w, n + 1) :: rest
      else (w, n) :: bump word rest
  end.

(** The callback of [matches.forEach]. *)
Definition countStep (wordCounts : list (string * nat)) (word : string)
  : list (string * nat) :=
  if negb (isStopWord word) then bump word wordCounts else wordCounts.

Definition countWordsOf (matches : list string) : list (string * nat) :=
  foldl countStep [] matches.

(** [.sort((a, b) => b.count - a.count)]: [Array.prototype.sort] is stable,
    so the result is the one of any stable sort by descending count; here
    insertion from the right. *)
Fixpoint insertDesc (x : string * nat) (sorted : list (string * nat))
  : list (string * nat) :=
  match sorted with
  | [] => [x]
  | y :: rest =>
      if y.2 <=? x.2 then x :: y :: rest else y :: insertDesc x rest
  end.

Definition sortDesc (l : list (string * nat)) : list (string * nat) :=
  foldr insertDesc [] l.

(** [sortedWords]: sorted, then [.slice(0, 50)]. *)
Definition sortedWords (wordCounts : list (string * nat))
  : list (string * nat) :=
  take 50 (sortDesc wordCounts).

Definition minFontSize : Z := 16.
Definition maxFontSize : Z := 36.

(** A font size is a JavaScript number; it is kept as the exact fraction
    that the floating-point operations of the source round. *)
Definition fontSizeOf (minCount maxCount count : nat) : Qc :=
  if minCount <? maxCount
  then
    let scale :=
      (Qc_of_Z (Z.of_nat count - Z.of_nat minCount)
       / Qc_of_Z (Z.of_nat maxCount - Z.of_nat minCount))%Qc in
    (Qc_of_Z minFontSize + scale * Qc_of_Z (maxFontSize - minFontSize))%Qc
  else if maxCount =? minCount
  then (Qc_of_Z (minFontSize + maxFontSize) / Qc_of_Z 2)%Qc
  else Qc_of_Z minFontSize.

(** The [words] memo of the component. *)
Definition words (text : string) : list (string * Qc) :=
  let matches := matchAll (Js.toLowerCase text) in
  let wordCounts := countWordsOf matches in
  let sortedWords := sortedWords wordCounts in
  match sortedWords with
  | [] => []
  | first :: _ =>
      let minCount := (List.last sortedWords first).2 in
      let maxCount := first.2 in
      List.map (λ '(word, count), (word, fontSizeOf minCount maxCount count))
        sortedWords
  end.

End WordCloud.

(** The tokens as the specification words them, for comparison with
    [WordCloud.matchAll]: the maximal runs of letters of length 3 or more. *)
Module WordCloudSpec.

Fixpoint alphabeticRunsFrom (cur : string) (s : string) : list string :=
  match s with
  | "" => if 3 <=? String.length cur then [cur] else []
  | String c r =>
      if Js.isLowerAlpha c
      then alphabeticRunsFrom (cur +:+ String c "") r
      else (if 3 <=? String.length cur then [cur] else [])
           ++ alphabeticRunsFrom "" r
  end.

Definition alphabeticRuns (s : string) : list string :=
  alphabeticRunsFrom "" s.

(** The maximal runs of word characters ([\w]). *)
Fixpoint wordRunsFrom (cur : string) (s : string) : list string :=
  match s with
  | "" => if Js.truthy cur then [cur] else []
  | String c r =>
      if Js.isWordChar c
      then wordRunsFrom (cur +:+ String c "") r
      else (if Js.truthy cur then [cur] else []) ++ wordRunsFrom "" r
  end.

Definition wordRuns (s : string) : list string := wordRunsFrom "" s.

Fixpoint allLowerAlpha (s : string) : bool :=
  match s with
  | "" => true
  | String c r => Js.isLowerAlpha c && allLowerAlpha r
  end.

(** The whole words made of letters only, of length 3 or more. *)
Definition alphabeticWords (s : string) : list string :=
  List.filter (λ w, allLowerAlpha w && (3 <=? String.length w)) (wordRuns s).

(** The distinct elements in the order of their first occurrence. *)
Fixpoint firstSeen (l : list string) : list string :=
  match l with
  | [] => []
  | x :: rest => x :: List.filter (λ y, negb (String.eqb x y)) (firstSeen rest)
  end.

Definition occurrences (word : string) (l : list string) : nat :=
  List.length (List.filter (String.eqb word) l).

Definition inKeys (word : string) (keys : list string) : bool :=
  existsb (λ k, String.eqb k word) keys.

Definition hasCount (c : nat) (e : string * nat) : bool := e.2 =? c.


(** The longest prefix of word characters, and what follows it. *)
Fixpoint wordSpan (s : string) : string * string :=
  match s with
  | "" => ("", "")
  | String c r =>
      if Js.isWordChar c
      then let '(u, t) := wordSpan r in (String c u, t)
      else ("", s)
  end.

(** A word made of letters only, of length 3 or more. *)
Definition alphabetic3 (w : string) : bool :=
  allLowerAlpha w && (3 <=? String.length w).

Fixpoint allWord (s : string) : bool :=
  match s with
  | "" => true
  | String c r => Js.isWordChar c && allWord r
  end.

End WordCloudSpec.

(** ** src/index.tsx: the streak calculator *)

(** Dates.  A canonical date key [YYYY-MM-DD] is represented by the number
    of its day, counted from 1970-01-01; a [Date] by its time value, the
    milliseconds since 1970-01-01T00:00Z.  The host time zone is given by
    the offset from UTC, in milliseconds, that is in force at local midnight
    of each local day: it is what [new Date(y, m, d)], the parsing of
    [YYYY/MM/DD], [setHours(0, 0, 0, 0)] and [setDate] consult, whereas
    [toISOString] does not.  Every [Date] of [calculateStreaks] is at local
    midnight. *)
Module Streaks.

Local Open Scope Z_scope.

Definition MS_PER_DAY : Z := 1000 * 60 * 60 * 24.

Definition TimeZone : Type := Z → Z.

(** The number of the day [y]-[m]-[d] of the proleptic Gregorian calendar,
    to write the date keys of the examples. *)
Definition dayNumber (y m d : Z) : Z :=
  let y' := if m <=? 2 then y - 1 else y in
  let era := y' / 400 in
  let yoe := y' - era * 400 in
  let doy := (153 * (m + (if 2 <? m then -3 else 9)) + 2) / 5 + d - 1 in
  let doe := yoe * 365 + yoe / 4 - yoe / 100 + doy in
  era * 146097 + doe - 719468.

(** The time value of local midnight of a local day. *)
Definition localMidnight (tz : TimeZone) (day : Z) : Z :=
  day * MS_PER_DAY - tz day.

(** [toDateKey]: [date.toISOString().split('T')[0]], the UTC day of a time
    value. *)
Definition toDateKey (time : Z) : Z := time / MS_PER_DAY.

(** [new Date(key.replace(/-/g, '/')).getTime()]: the key read as a local
    date. *)
Definition parseKey (tz : TimeZone) (key : Z) : Z := localMidnight tz key.

(** [Math.round(diffTime / (1000 * 60 * 60 * 24))]: the nearest integer,
    halves upwards. *)
Definition roundDays (diffTime : Z) : Z :=
  (2 * diffTime + MS_PER_DAY) / (2 * MS_PER_DAY).

(** [.sort((a, b) => a.getTime() - b.getTime())] *)
Fixpoint insertTime (t : Z) (sorted : list Z) : list Z :=
  match sorted with
  | [] => [t]
  | u :: rest => if t <=? u then t :: u :: rest else u :: insertTime t rest
  end.

Definition sortTimes (l : list Z) : list Z := foldr insertTime [] l.

(** The [for] loop of the longest streak, from index [i] on: [prevDate] is
    [sortedDates[i - 1]], [rest] the dates from [sortedDates[i]] on. *)
Fixpoint longestFrom (prevDate : Z) (rest : list Z)
  (currentLongestStreak longestStreak : nat) : nat :=
  match rest with
  | [] => longestStreak
  | currentDate :: rest' =>
      let diffTime := currentDate - prevDate in
      let diffDays := roundDays diffTime in
      let currentLongestStreak :=
        if diffDays =? 1 then S currentLongestStreak else 1%nat in
      let longestStreak :=
        if (longestStreak <? currentLongestStreak)%nat
        then currentLongestStreak else longestStreak in
      longestFrom currentDate rest' currentLongestStreak longestStreak
  end.

Definition longestOf (sortedDates : list Z) : nat :=
  match sortedDates with
  | [] => 0%nat
  | first :: rest => longestFrom first rest 1 1
  end.

(** [dateSet.has(key)] *)
Definition has (dateSet : list Z) (key : Z) : bool :=
  existsb (Z.eqb key) dateSet.

(** The [while] loop of the current streak: [day] is the local day of
    [dateToCheck]; [setDate(getDate() - 1)] moves it to local midnight of
    the day before.  [None] when the fuel runs out. *)
Fixpoint currentFrom (fuel : nat) (tz : TimeZone) (dateSet : list Z)
  (day : Z) (currentStreak : nat) : option nat :=
  match fuel with
  | O => None
  | S fuel' =>
      if has dateSet (toDateKey (localMidnight tz day))
      then currentFrom fuel' tz dateSet (day - 1) (S currentStreak)
      else Some currentStreak
  end.

Record Streak := {
  currentStreak : nat;
  longestStreak : nat
}.

(** [calculateStreaks].  [today] is the local day of [new Date()].  A date
    key is tested at most twice by the walk (the offsets are less than a
    day), so twice the number of keys, and one, is fuel enough. *)
Definition calculateStreaks (tz : TimeZone) (today : Z) (entryKeys : list Z)
  : option Streak :=
  match entryKeys with
  | [] => Some {| currentStreak := 0; longestStreak := 0 |}
  | _ =>
      let sortedDates := sortTimes (List.map (parseKey tz) entryKeys) in
      let dateSet := entryKeys in
      let longest := longestOf sortedDates in
      match currentFrom (S (2 * List.length entryKeys)) tz dateSet today 0 with
      | Some current =>
          Some {| currentStreak := current; longestStreak := longest |}
      | None => None
      end
  end.

(** UTC, and a zone one hour east of it all year. *)
Definition utc : TimeZone := λ _, 0.
Definition utcPlus1 : TimeZone := λ _, 3600000.

(** Europe/London in 2025: summer time, one hour east of UTC, is in force
    at local midnight from 31 March to 26 October. *)
Definition london2025 : TimeZone :=
  λ day,
    if (dayNumber 2025 3 31 <=? day) && (day <=? dayNumber 2025 10 26)
    then 3600000 else 0.

(** The days [d], [d - 1], ..., [d - (n - 1)] are all in the set. *)
Definition runEndingAt (dateSet : list Z) (d : Z) (n : nat) : Prop :=
  ∀ i, 0 <= i < Z.of_nat n → (d - i) ∈ dateSet.

(** The offset never changes by half a day or more. *)
Definition steady (tz : TimeZone) : Prop :=
  ∀ a b, 2 * Z.abs (tz a - tz b) < MS_PER_DAY.

(** The date key of local midnight is the local day shifted by [c], the
    same for every day (so it is in a zone with a fixed offset). *)
Definition uniform (tz : TimeZone) (c : Z) : Prop :=
  ∀ day, toDateKey (localMidnight tz day) = day + c.


(** What the scan for the longest streak knows after the dates of [seen],
    the last of which is [prev]: the run that ends at [prev] has length
    [current], and [longest] is the length of a longest run of [seen]. *)
Definition scanned (seen : list Z) (prev : Z) (current longest : nat) : Prop :=
  (1 ≤ current ≤ longest)%nat ∧
  runEndingAt seen prev current ∧
  ((prev - Z.of_nat current) ∉ seen) ∧
  (∀ d n, runEndingAt seen d n → (n ≤ longest)%nat) ∧
  (∃ d, runEndingAt seen d longest) ∧
  (∀ x, x ∈ seen → x <= prev).


(** America/New_York in 2025: daylight time, four hours west of UTC, is in
    force at local midnight from 10 March to 2 November; standard time is
    five hours west. *)
Definition newYork2025 : TimeZone :=
  λ day,
    if (dayNumber 2025 3 10 <=? day) && (day <=? dayNumber 2025 11 2)
    then -14400000 else -18000000.

End Streaks.

(** * Part II: properties *)

(** ** String primitives *)

Module JsFacts.
Import Js.

Lemma startsWith_app (p s : string) : startsWith (p +:+ s) p = true.
Proof.
  induction p as [|c p IH]; simpl; [done|].
  by rewrite Ascii.eqb_refl.
Qed.

Lemma drop_app (p s : string) : drop (String.length p) (p +:+ s) = s.
Proof. induction p as [|c p IH]; simpl; [done | exact IH]. Qed.

Lemma startsWith_split (p s : string) :
  startsWith s p = true → s = p +:+ drop (String.length p) s.
Proof.
  revert s; induction p as [|c p IH]; intros s H; [done|].
  destruct s as [|d s]; simpl in H; [done|]. simpl.
  destruct (Ascii.eqb c d) eqn:Hcd; [|done].
  apply Ascii.eqb_eq in Hcd as ->.
  change (String d s = String d (p +:+ drop (String.length p) s)).
  f_equal. by apply IH.
Qed.

(** Replacing a leading pattern by the empty string strips it. *)
Lemma replace_unfold (pat rep s : string) :
  replace pat rep s =
  if startsWith s pat
  then rep +:+ drop (String.length pat) s
  else match s with
       | "" => ""
       | String c r => String c (replace pat rep r)
       end.
Proof. by destruct s. Qed.

Lemma replace_prefix (p s : string) : replace p "" (p +:+ s) = s.
Proof. rewrite replace_unfold, startsWith_app. simpl. apply drop_app. Qed.

End JsFacts.

Example countWords_empty : countWords "" = 0.
Proof. reflexivity. Qed.

Example countWords_blank : countWords "  " = 0.
Proof. reflexivity. Qed.

Example countWords_three : countWords " one  two three " = 3.
Proof. reflexivity. Qed.

(** Content with at least one word is not the empty string. *)
Lemma countWords_pos_truthy (text : string) :
  0 < countWords text → Js.truthy text = true.
Proof. destruct text; [inversion 1 | done]. Qed.

(** ** The Sync Coordinator *)

Module DataStoreFacts.
Import Supabase DataStore.

Lemma entryKey_not_email (d : string) : entryKey d ≠ USER_EMAIL_KEY.
Proof. discriminate. Qed.

Lemma entryKey_inj (d d' : string) : entryKey d = entryKey d' → d = d'.
Proof. unfold entryKey. apply (inj (String.app _)). Qed.

Lemma currentEmail_insert_entry (ls : gmap string string) (d c : string) :
  currentEmail (<[entryKey d := c]> ls) = currentEmail ls.
Proof.
  unfold currentEmail.
  by rewrite lookup_insert_ne by apply entryKey_not_email.
Qed.

(** Every local key is the entry key of the date key [replace] gives it. *)
Lemma localKeys_spec (ls : gmap string string) (key : string) :
  key ∈ localKeys ls ↔
  ∃ d, key = entryKey d ∧ is_Some (ls !! key).
Proof.
  unfold localKeys. rewrite list_elem_of_In, filter_In, <- list_elem_of_In.
  rewrite list_elem_of_fmap. split.
  - intros [[[k v] [-> Hkv]] Hp]. simpl in *.
    apply elem_of_map_to_list in Hkv.
    exists (Js.drop (String.length LOCAL_ENTRY_PREFIX) k). split; [|by eauto].
    by apply JsFacts.startsWith_split.
  - intros [d [-> [v Hv]]]. split.
    + exists (entryKey d, v). split; [done|]. by apply elem_of_map_to_list.
    + apply JsFacts.startsWith_app.
Qed.

Lemma dateKey_of_entryKey (d : string) :
  Js.replace LOCAL_ENTRY_PREFIX "" (entryKey d) = d.
Proof. apply JsFacts.replace_prefix. Qed.

Lemma addLocal_entryKey (ls : gmap string string) (m : gmap string nat) (d : string) :
  is_Some (ls !! entryKey d) →
  addLocal ls m (entryKey d) =
  match localCount ls d with Some n => <[d := n]> m | None => m end.
Proof.
  intros [c Hc]. unfold addLocal, localCount.
  rewrite dateKey_of_entryKey, Hc. simpl.
  by destruct (0 <? countWords c)%nat.
Qed.

Lemma mergeMissing_entryKey (ls : gmap string string) (m : gmap string nat) (d : string) :
  is_Some (ls !! entryKey d) →
  mergeMissing ls m (entryKey d) =
  match m !! d, localCount ls d with
  | None, Some n => <[d := n]> m
  | _, _ => m
  end.
Proof.
  intros [c Hc]. unfold mergeMissing, localCount.
  rewrite dateKey_of_entryKey, Hc. simpl.
  destruct (m !! d); [done|].
  by destruct (0 <? countWords c)%nat.
Qed.

Lemma foldl_addLocal (ls : gmap string string) (keys : list string) :
  cachedKeys ls keys →
  ∀ (m : gmap string nat) (d : string),
    foldl (addLocal ls) m keys !! d =
    if decide (entryKey d ∈ keys)
    then match localCount ls d with Some n => Some n | None => m !! d end
    else m !! d.
Proof.
  induction keys as [|key keys IH]; intros Hk m d; cbn [foldl].
  - by rewrite decide_False by apply not_elem_of_nil.
  - destruct (Hk key) as [d' [-> Hsome]]; [left|].
    rewrite IH by (intros k ?; apply Hk; by right).
    rewrite addLocal_entryKey by done.
    destruct (decide (d = d')) as [->|Hne].
    + rewrite (decide_True (P := _ ∈ _ :: _)) by left.
      destruct (localCount ls d') as [n|] eqn:Hn.
      * rewrite lookup_insert_eq. by case_decide.
      * by case_decide.
    + assert (Hm : ∀ n, <[d' := n]> m !! d = m !! d)
        by (intros; by apply lookup_insert_ne).
      assert (Hin : entryKey d ∈ entryKey d' :: keys ↔ entryKey d ∈ keys).
      { rewrite elem_of_cons. split; [|by right].
        intros [Heq|]; [|done]. by apply entryKey_inj in Heq. }
      destruct (localCount ls d'); rewrite ?Hm;
        repeat case_decide; tauto || done.
Qed.

Lemma foldl_mergeMissing (ls : gmap string string) (keys : list string) :
  cachedKeys ls keys →
  ∀ (m : gmap string nat) (d : string),
    foldl (mergeMissing ls) m keys !! d =
    match m !! d with
    | Some n => Some n
    | None => if decide (entryKey d ∈ keys) then localCount ls d else None
    end.
Proof.
  induction keys as [|key keys IH]; intros Hk m d; cbn [foldl].
  - rewrite decide_False by apply not_elem_of_nil. by destruct (m !! d).
  - destruct (Hk key) as [d' [-> Hsome]]; [left|].
    rewrite IH by (intros k ?; apply Hk; by right).
    rewrite mergeMissing_entryKey by done.
    destruct (decide (d = d')) as [->|Hne].
    + rewrite (decide_True (P := _ ∈ _ :: _)) by left.
      destruct (m !! d') eqn:Hm; [by rewrite Hm|].
      destruct (localCount ls d') as [n|] eqn:Hn.
      * by rewrite lookup_insert_eq.
      * rewrite Hm. by case_decide.
    + assert (Hin : entryKey d ∈ entryKey d' :: keys ↔ entryKey d ∈ keys).
      { rewrite elem_of_cons. split; [|by right].
        intros [Heq|]; [|done]. by apply entryKey_inj in Heq. }
      assert (Hm : ∀ n, <[d' := n]> m !! d = m !! d)
        by (intros; by apply lookup_insert_ne).
      destruct (m !! d'), (localCount ls d'); rewrite ?Hm;
        destruct (m !! d); repeat case_decide; tauto || done.
Qed.

Lemma localKeys_cached (ls : gmap string string) : cachedKeys ls (localKeys ls).
Proof. intros key. by rewrite localKeys_spec. Qed.

Lemma localCount_in_keys (ls : gmap string string) (d : string) :
  (if decide (entryKey d ∈ localKeys ls) then localCount ls d else None)
  = localCount ls d.
Proof.
  case_decide as Hin; [done|].
  unfold localCount. destruct (ls !! entryKey d) eqn:Hd; [|done].
  exfalso. apply Hin, localKeys_spec. eauto.
Qed.

(** The rows of a user as a map: setting them one by one gives back the
    word count column. *)
Lemma foldl_set_rows (rows : gmap string Row) (d : string) :
  foldl (λ (m : gmap string nat) r, <[r.1 := r.2]> m) ∅
    (prod_map id word_count <$> map_to_list rows) !! d
  = word_count <$> rows !! d.
Proof.
  assert (Hgen : ∀ (l : list (string * Row)) (m : gmap string nat),
    NoDup l.*1 →
    foldl (λ (m : gmap string nat) r, <[r.1 := r.2]> m) m
      (prod_map id word_count <$> l) !! d
    = match list_to_map (M := gmap string Row) l !! d with
      | Some r => Some (word_count r)
      | None => m !! d
      end).
  { induction l as [|[k r] l IH]; intros m Hnd; simpl; [done|].
    apply NoDup_cons in Hnd as [Hk Hnd].
    rewrite IH by done.
    destruct (decide (k = d)) as [->|Hne].
    - rewrite lookup_insert_eq.
      rewrite (not_elem_of_list_to_map_1 (M := gmap string) l d) by done.
      by rewrite lookup_insert_eq.
    - rewrite !lookup_insert_ne by done. done. }
  rewrite Hgen by apply NoDup_fst_map_to_list.
  rewrite list_to_map_to_list, lookup_empty.
  by destruct (rows !! d).
Qed.

Lemma getAllEntries_online (w : World) (email : string) :
  currentEmail (localStorage w) = Some email →
  ∃ index, getAllEntries true w = Returned index ∧
    ∀ d, index !! d =
         match rowsOf (remote w) email !! d with
         | Some r => Some (word_count r)
         | None => localCount (localStorage w) d
         end.
Proof.
  intros Hemail. unfold getAllEntries. rewrite Hemail. simpl.
  eexists; split; [reflexivity|]. intros d.
  rewrite foldl_mergeMissing by apply localKeys_cached.
  rewrite foldl_set_rows, localCount_in_keys.
  by destruct (rowsOf (remote w) email !! d).
Qed.

Lemma getAllEntries_offline (w : World) (email : string) :
  currentEmail (localStorage w) = Some email →
  ∃ index, getAllEntries false w = Returned index ∧
    ∀ d, index !! d = localCount (localStorage w) d.
Proof.
  intros Hemail. unfold getAllEntries. rewrite Hemail. simpl.
  eexists; split; [reflexivity|]. intros d.
  rewrite foldl_addLocal by apply localKeys_cached.
  rewrite lookup_empty.
  destruct (localCount (localStorage w) d) eqn:Hd.
  - case_decide as Hin; [done|].
    rewrite <- localCount_in_keys in Hd. by rewrite decide_False in Hd.
  - by case_decide.
Qed.

(** What [saveEntry] leaves behind for a logged-in user. *)
Lemma saveEntry_logged_in (net : bool) (now d c : string) (w : World) (email : string) :
  currentEmail (localStorage w) = Some email →
  saveEntry net now d c w =
  (Returned (),
   {| localStorage := <[entryKey d := c]> (localStorage w);
      remote := (upsert net (remote w) email d
                   {| content := c; word_count := countWords c;
                      updated_at := now |}).1 |}).
Proof.
  intros Hemail. unfold saveEntry. rewrite Hemail.
  by destruct (upsert _ _ _ _ _).
Qed.

Lemma rowsOf_upsert (t : Table) (email d : string) (r : Row) :
  rowsOf (upsert true t email d r).1 email !! d = Some r.
Proof.
  unfold rowsOf, upsert. simpl.
  rewrite lookup_insert_eq. simpl. by rewrite lookup_insert_eq.
Qed.

(** Content without a word that reached the remote table is enumerated
    with the count 0: the remote rows are set without a test. *)
Lemma blank_listed_when_synced (now d c : string) (w : World) (email : string) :
  currentEmail (localStorage w) = Some email →
  countWords c = 0 →
  ∃ index,
    getAllEntries true (saveEntry true now d c w).2 = Returned index ∧
    index !! d = Some 0.
Proof.
  intros Hemail Hc.
  rewrite (saveEntry_logged_in _ _ _ _ _ email) by done. simpl.
  destruct (getAllEntries_online
              {| localStorage := <[entryKey d := c]> (localStorage w);
                 remote := <[email :=
                   <[d := {| content := c; word_count := countWords c;
                             updated_at := now |}]> (rowsOf (remote w) email)]>
                   (remote w) |} email) as [index [Hget Hidx]].
  { simpl. by rewrite currentEmail_insert_entry. }
  exists index. split; [done|].
  rewrite Hidx. simpl.
  unfold rowsOf at 1. rewrite lookup_insert_eq. simpl.
  rewrite lookup_insert_eq. simpl. by rewrite Hc.
Qed.

(** When the enumeration falls back on the cache, content without a word
    is left out, whatever happened to the upsert. *)
Lemma blank_absent_when_offline (net : bool) (now d c : string) (w : World) (email : string) :
  currentEmail (localStorage w) = Some email →
  countWords c = 0 →
  ∃ index,
    getAllEntries false (saveEntry net now d c w).2 = Returned index ∧
    index !! d = None.
Proof.
  intros Hemail Hc.
  rewrite (saveEntry_logged_in _ _ _ _ _ email) by done. simpl.
  edestruct getAllEntries_offline as [index [Hget Hidx]];
    [|exists index; split; [exact Hget|]].
  { simpl. rewrite currentEmail_insert_entry. exact Hemail. }
  rewrite Hidx. unfold localCount. simpl.
  rewrite lookup_insert_eq. by rewrite Hc.
Qed.

Lemma currentEmail_fresh (email : string) :
  Js.truthy email = true → currentEmail (localStorage (fresh email)) = Some email.
Proof.
  intros He. unfold currentEmail, fresh, login. simpl.
  rewrite lookup_insert_ne by done. rewrite lookup_insert_eq. by rewrite He.
Qed.

Lemma currentEmail_anonymous : currentEmail (localStorage anonymous) = None.
Proof. done. Qed.

(** C1, evaluated on the code: a logged-in user with an empty cache and an
    empty remote table saves the empty text for 2025-01-01 while the remote
    store is reachable; the enumeration that follows, the remote store still
    reachable, contains that date key, with the word count 0. *)
Theorem saveEntry_blank_then_listed :
  ∃ index,
    getAllEntries true
      (saveEntry true "2025-01-01T10:00:00.000Z" "2025-01-01" ""
         (fresh "ann@example.org")).2 = Returned index ∧
    index !! "2025-01-01" = Some 0.
Proof. by apply (blank_listed_when_synced _ _ _ _ "ann@example.org"). Qed.

(** C2 as stated fails: without a stored user identity [getEntry] resolves
    with [null] and [getAllEntries] resolves with an empty index; neither
    rejects. *)
Lemma getEntry_anonymous_returns :
  (getEntry true "2025-01-01" anonymous).1 = Returned None ∧
  isThrown (getEntry true "2025-01-01" anonymous).1 = false ∧
  getAllEntries true anonymous = Returned ∅ ∧
  isThrown (getAllEntries true anonymous) = false.
Proof. done. Qed.

(** C2, amended: when no user identity is stored, [saveEntry] rejects with
    the error "Not logged in" and changes nothing, [getEntry] resolves with
    [null] and [getAllEntries] resolves with the empty index; none of the
    three contacts the remote store or touches the cache. *)
Theorem not_logged_in (net : bool) (now d c : string) (w : World) :
  currentEmail (localStorage w) = None →
  saveEntry net now d c w = (Thrown "Not logged in", w) ∧
  getEntry net d w = (Returned None, w) ∧
  getAllEntries net w = Returned ∅.
Proof.
  intros Hemail. unfold saveEntry, getEntry, getAllEntries.
  by rewrite Hemail.
Qed.

Lemma not_logged_in_witness :
  saveEntry true "2025-01-01T10:00:00.000Z" "2025-01-01" "dear diary" anonymous
    = (Thrown "Not logged in", anonymous) ∧
  getEntry true "2025-01-01" anonymous = (Returned None, anonymous) ∧
  getAllEntries true anonymous = Returned ∅.
Proof. apply not_logged_in. reflexivity. Defined.

(** C3: for a logged-in user, when the remote enumeration succeeds the
    index gives every date key of the remote result its remote word count,
    and every other date key the word count of its cached content when that
    count is positive (and nothing otherwise); when the remote enumeration
    fails the index is that of the cache alone. *)
Theorem getAllEntries_tie_break (w : World) (email : string) :
  currentEmail (localStorage w) = Some email →
  (∃ index, getAllEntries true w = Returned index ∧
     ∀ d, index !! d =
          match rowsOf (remote w) email !! d with
          | Some r => Some (word_count r)
          | None => localCount (localStorage w) d
          end) ∧
  (∃ index, getAllEntries false w = Returned index ∧
     ∀ d, index !! d = localCount (localStorage w) d).
Proof.
  intros Hemail. split.
  - by apply getAllEntries_online.
  - by apply (getAllEntries_offline _ email).
Qed.

Lemma getAllEntries_tie_break_witness :
  ∃ online offline,
    getAllEntries true midlife = Returned online ∧
    getAllEntries false midlife = Returned offline ∧
    online !! "2025-01-01" = Some 5 ∧
    online !! "2025-01-02" = Some 3 ∧
    online !! "2025-01-03" = None ∧
    offline !! "2025-01-01" = Some 3 ∧
    offline !! "2025-01-02" = Some 3 ∧
    offline !! "2025-01-03" = None.
Proof.
  destruct (getAllEntries_tie_break midlife "ann@example.org" eq_refl)
    as [[online [Hon Hlookup]] [offline [Hoff Hlookup']]].
  exists online, offline.
  split; [exact Hon|]. split; [exact Hoff|].
  rewrite !Hlookup, !Hlookup'. vm_compute. by repeat split.
Defined.

(** C4: for a logged-in user and content with at least one word,
    [saveEntry] followed by [getEntry] on the same date key resolves with
    exactly that content, both when every remote operation succeeds (the
    remote row then holds the content) and when every remote operation
    fails; [saveEntry] resolves and neither call rejects. *)
Theorem save_then_get (net : bool) (now d c : string) (w : World) (email : string) :
  currentEmail (localStorage w) = Some email →
  0 < countWords c →
  (saveEntry net now d c w).1 = Returned () ∧
  (getEntry net d (saveEntry net now d c w).2).1 = Returned (Some c) ∧
  (net = true →
   content <$> rowsOf (remote (saveEntry net now d c w).2) email !! d = Some c).
Proof.
  intros Hemail Hc.
  rewrite (saveEntry_logged_in _ _ _ _ _ email) by done. simpl.
  split; [done|]. unfold getEntry. simpl.
  rewrite currentEmail_insert_entry, Hemail.
  destruct net.
  - unfold select_single. rewrite !rowsOf_upsert. by split.
  - simpl. rewrite lookup_insert_eq. by split.
Qed.

Lemma save_then_get_witness :
  let w := fresh "ann@example.org" in
  let now := "2025-01-01T10:00:00.000Z" in
  let d := "2025-01-01" in
  let c := "dear diary" in
  ((saveEntry true now d c w).1 = Returned () ∧
   (getEntry true d (saveEntry true now d c w).2).1 = Returned (Some c) ∧
   (true = true →
    content <$> rowsOf (remote (saveEntry true now d c w).2)
                  "ann@example.org" !! d = Some c)) ∧
  ((saveEntry false now d c w).1 = Returned () ∧
   (getEntry false d (saveEntry false now d c w).2).1 = Returned (Some c) ∧
   (false = true →
    content <$> rowsOf (remote (saveEntry false now d c w).2)
                  "ann@example.org" !! d = Some c)).
Proof.
  split.
  - apply (save_then_get true _ _ _ _ "ann@example.org");
      [reflexivity | vm_compute; lia].
  - apply (save_then_get false _ _ _ _ "ann@example.org");
      [reflexivity | vm_compute; lia].
Defined.

End DataStoreFacts.

(** ** The text analyzer *)

Module AnalyzerFacts.
Import Analyzer.

Example analyze_sample :
  analyzeText "I am anxious and scared today" =
  [("feeling",
    [("Anxiety / Fear", 2); ("Joy / Happiness", 0); ("Sadness / Grief", 0);
     ("Anger / Frustration", 0); ("Love / Affection", 0)]);
   ("topic",
    [("Work / Career", 0); ("Family / Home", 0); ("Health / Wellness", 0);
     ("Self / Personal Growth", 1)]);
   ("mindset",
    [("Positive", 0); ("Negative", 0); ("Certain", 0); ("Uncertain", 0)]);
   ("time", [("Past", 0); ("Present", 2); ("Future", 0)]);
   ("perspective",
    [("I (Self-focused)", 1); ("We (Group-focused)", 0);
     ("Them (Other-focused)", 0)])].
Proof. vm_compute. reflexivity. Qed.

Lemma analyzeText_shape (text : string) :
  List.map (λ c, (c.1, c.2.*1)) (analyzeText text)
  = List.map (λ c, (c.1, c.2.*1)) ANALYSIS_KEYWORDS.
Proof.
  unfold analyzeText.
  generalize (Js.toLowerCase text) as lowered; intros lowered.
  induction ANALYSIS_KEYWORDS as [|[category subs] l IH]; [done|].
  cbn [List.map]. rewrite IH. f_equal. simpl. f_equal.
  clear. induction subs as [|[sub kws] subs IH]; [done|].
  simpl. f_equal. exact IH.
Qed.

(** C8: the analysis of "I am anxious and scared today" counts 2 for the
    feeling 'Anxiety / Fear' (at least 2) and 2 for the time 'Present' (at
    least 1); every analysis has the categories and subcategories of the
    lexicon, each with a count that is a natural number; and the analysis
    is a function of the text alone. *)
Theorem analyzeText_sample :
  let r := analyzeText "I am anxious and scared today" in
  (count r "feeling" "Anxiety / Fear" = Some 2 ∧ 2 ≤ 2) ∧
  (count r "time" "Present" = Some 2 ∧ 1 ≤ 2) ∧
  (∀ text,
     List.map (λ c, (c.1, c.2.*1)) (analyzeText text)
     = List.map (λ c, (c.1, c.2.*1)) ANALYSIS_KEYWORDS ∧
     Forall (λ c, Forall (λ sub, 0 ≤ sub.2) c.2) (analyzeText text)) ∧
  (∀ text r1 r2, r1 = analyzeText text ∧ r2 = analyzeText text → r1 = r2).
Proof.
  cbv zeta. rewrite analyze_sample.
  split; [split; [reflexivity | lia]|].
  split; [split; [reflexivity | lia]|].
  split.
  - intros text. split; [apply analyzeText_shape|].
    apply Forall_forall; intros c _. apply Forall_forall; intros sub _. lia.
  - intros text r1 r2 [-> ->]. reflexivity.
Qed.

(** *** The dominant subcategory *)

Lemma foldl_pick_last_greatest (first : string * nat) (rest : list (string * nat)) :
  ∃ i,
    (first :: rest) !! i = Some (foldl pick first rest) ∧
    (∀ j e, (first :: rest) !! j = Some e → e.2 ≤ (foldl pick first rest).2) ∧
    (∀ j e, i < j → (first :: rest) !! j = Some e →
            e.2 < (foldl pick first rest).2).
Proof.
  induction rest as [|b rest IH] using rev_ind.
  - exists 0. simpl. split; [done|]. split.
    + intros [|j] e He; simplify_eq/=; lia.
    + intros [|j] e Hj He; simplify_eq/=; lia.
  - destruct IH as (i & Hi & Hle & Hlt).
    rewrite foldl_app. cbn [foldl].
    set (r := foldl pick first rest) in *.
    rewrite app_comm_cons.
    assert (Hlen : i < List.length (first :: rest))
      by (eapply lookup_lt_Some; exact Hi).
    assert (Hpick : pick r b = if (b.2 <? r.2)%nat then r else b) by done.
    rewrite Hpick. clear Hpick. destruct (b.2 <? r.2)%nat eqn:Hb.
    + apply Nat.ltb_lt in Hb. exists i. split; [|split].
      * by rewrite lookup_app_l.
      * intros j e He. apply lookup_app_Some in He as [He|[Hj He]]; [by eapply Hle|].
        apply list_lookup_singleton_Some in He as [_ <-]. lia.
      * intros j e Hj He. apply lookup_app_Some in He as [He|[Hj' He]]; [by eapply Hlt|].
        apply list_lookup_singleton_Some in He as [_ <-]. lia.
    + apply Nat.ltb_ge in Hb. exists (List.length (first :: rest)). split; [|split].
      * rewrite lookup_app_r by lia. by rewrite Nat.sub_diag.
      * intros j e He. apply lookup_app_Some in He as [He|[Hj He]].
        -- apply Hle in He. lia.
        -- apply list_lookup_singleton_Some in He as [_ <-]. lia.
      * intros j e Hj He. apply lookup_app_Some in He as [He|[Hj' He]].
        -- apply lookup_lt_Some in He. lia.
        -- apply list_lookup_singleton_Some in He as [Hz _]. lia.
Qed.

(** C6 as stated fails: in the analysis of "happy but sad" the feelings
    'Joy / Happiness' and 'Sadness / Grief' share the greatest count, 1; the
    first of them in the order of the lexicon is 'Joy / Happiness', and the
    code selects 'Sadness / Grief'. *)
Lemma dominant_tie_not_first :
  ∃ feeling,
    get "feeling" (analyzeText "happy but sad") = Some feeling ∧
    feeling = [("Anxiety / Fear", 0); ("Joy / Happiness", 1);
               ("Sadness / Grief", 1); ("Anger / Frustration", 0);
               ("Love / Affection", 0)] ∧
    DominantSpec.dominant feeling = "Joy / Happiness" ∧
    getDominantCategory feeling = "Sadness / Grief" ∧
    getDominantCategory feeling ≠ DominantSpec.dominant feeling.
Proof.
  exists [("Anxiety / Fear", 0); ("Joy / Happiness", 1);
          ("Sadness / Grief", 1); ("Anger / Frustration", 0);
          ("Love / Affection", 0)].
  assert (Hcode : getDominantCategory
            [("Anxiety / Fear", 0); ("Joy / Happiness", 1);
             ("Sadness / Grief", 1); ("Anger / Frustration", 0);
             ("Love / Affection", 0)] = "Sadness / Grief")
    by (vm_compute; reflexivity).
  assert (Hspec : DominantSpec.dominant
            [("Anxiety / Fear", 0); ("Joy / Happiness", 1);
             ("Sadness / Grief", 1); ("Anger / Frustration", 0);
             ("Love / Affection", 0)] = "Joy / Happiness")
    by (vm_compute; reflexivity).
  split; [vm_compute; reflexivity|]. split; [reflexivity|].
  split; [exact Hspec|]. split; [exact Hcode|].
  rewrite Hcode, Hspec. intros H. inversion H.
Qed.

(** C6, amended: when every count is zero (or there is no subcategory) the
    result is 'N/A'; otherwise the selected subcategory has the greatest
    count, and when several subcategories share the greatest count the last
    of them in the order of the entries is selected. *)
Theorem getDominantCategory_last_greatest (entries : list (string * nat)) :
  if forallb (λ e, (e.2 =? 0)%nat) entries
  then getDominantCategory entries = "N/A"
  else ∃ i v,
      entries !! i = Some (getDominantCategory entries, v) ∧
      (∀ j e, entries !! j = Some e → e.2 ≤ v) ∧
      (∀ j e, i < j → entries !! j = Some e → e.2 < v).
Proof.
  unfold getDominantCategory.
  destruct (forallb _ entries) eqn:Hall; [by rewrite orb_true_r|].
  destruct entries as [|first rest]; [done|].
  cbn [List.length Nat.eqb orb].
  destruct (foldl_pick_last_greatest first rest) as (i & Hi & Hle & Hlt).
  exists i, (foldl pick first rest).2.
  split; [|split; [exact Hle | exact Hlt]].
  rewrite Hi. by destruct (foldl pick first rest).
Qed.

End AnalyzerFacts.

(** ** The history of word counts *)

Module JournalFacts.
Import Journal.
Import DataStore (Outcome, Returned, Thrown, isThrown).

Lemma historyKey_not_entryKey (d d' : string) : historyKey d ≠ entryKey d'.
Proof. discriminate. Qed.

Lemma getWordCountHistory_saveEntry (d d' c : string) (ls : Storage) :
  getWordCountHistory d (saveEntry d' c ls) = getWordCountHistory d ls.
Proof.
  unfold getWordCountHistory, saveEntry.
  destruct (0 <? countWords c).
  - by rewrite lookup_insert_ne by (symmetry; apply historyKey_not_entryKey).
  - by rewrite lookup_delete_ne by (symmetry; apply historyKey_not_entryKey).
Qed.

Lemma getWordCountHistory_save (d : string) (h : list Sample) (ls : Storage) :
  getWordCountHistory d (saveWordCountHistory d h ls) = Returned (Some h).
Proof.
  unfold getWordCountHistory, saveWordCountHistory.
  by rewrite lookup_insert_eq.
Qed.

Lemma readable_inv (d : string) (ls : Storage) :
  readable d ls → ∃ data, getWordCountHistory d ls = Returned data.
Proof.
  unfold readable. destruct (getWordCountHistory d ls) as [data|e]; [eauto|done].
Qed.

Lemma lastPoint_snoc (h : list Sample) (p : Sample) : lastPoint (h ++ [p]) = Some p.
Proof. unfold lastPoint. rewrite fmap_app. simpl. apply last_last. Qed.

Lemma lastPoint_nil_inv (h : list Sample) : lastPoint h = None → h = [].
Proof.
  destruct h as [|p h] using rev_ind; [done|].
  by rewrite lastPoint_snoc.
Qed.

Lemma lastPoint_Some_inv (h : list Sample) (p : Sample) :
  lastPoint h = Some p → ∃ h0, h = h0 ++ [p].
Proof.
  destruct h as [|q h _] using rev_ind; [done|].
  rewrite lastPoint_snoc. intros [= ->]. by exists h.
Qed.

(** On a store whose history of the date key can be read, the [try] runs to
    its end. *)
Lemma recordHistory_readable (now1 now2 : Z) (d : string) (n : nat) (ls : Storage) :
  readable d ls →
  recordHistory now1 now2 d n ls =
  Returned
    (if 0 <? n
     then
       let h := match getWordCountHistory d ls with
                | Returned data => default [] data
                | Thrown _ => []
                end in
       match lastPoint h with
       | None =>
           saveWordCountHistory d
             [{| timestamp := (now1 - 1000)%Z; wordCount := 0 |};
              {| timestamp := now2; wordCount := n |}] ls
       | Some p =>
           if wordCount p =? n then ls
           else saveWordCountHistory d
                  (h ++ [{| timestamp := now2; wordCount := n |}]) ls
       end
     else saveWordCountHistory d [] ls).
Proof.
  intros [data Hdata]%readable_inv. unfold recordHistory. rewrite Hdata.
  destruct (0 <? n); [|done]. cbv zeta.
  set (h := default [] data).
  destruct (lastPoint h) as [p|] eqn:Hlast.
  - apply lastPoint_Some_inv in Hlast as Hh. destruct Hh as [h0 Hh].
    assert (Hlen : (List.length h =? 0) = false).
    { rewrite Hh, length_app. simpl. apply Nat.eqb_neq. lia. }
    rewrite Hlen. by destruct (wordCount p =? n).
  - apply lastPoint_nil_inv in Hlast as Hh. by rewrite Hh.
Qed.

(** The series after one save, by cases, and it can still be read. *)
Lemma series_after_save (now1 now2 : Z) (d text : string) (v : View) :
  readable d (storage v) →
  readable d (storage (JournalView_saveEntry now1 now2 d text v)) ∧
  series d (JournalView_saveEntry now1 now2 d text v) =
  let n := countWords text in
  let h := series d v in
  if 0 <? n
  then match lastPoint h with
       | None => [{| timestamp := (now1 - 1000)%Z; wordCount := 0 |};
                  {| timestamp := now2; wordCount := n |}]
       | Some p =>
           if wordCount p =? n then h
           else h ++ [{| timestamp := now2; wordCount := n |}]
       end
  else [].
Proof.
  intros Hread.
  assert (Hread' : readable d (saveEntry d text (storage v)))
    by (unfold readable; by rewrite getWordCountHistory_saveEntry).
  unfold series, JournalView_saveEntry, readable.
  rewrite (recordHistory_readable _ _ _ _ _ Hread'). cbn [storage].
  rewrite getWordCountHistory_saveEntry. cbv zeta.
  destruct (0 <? countWords text).
  - destruct (lastPoint _) as [p|].
    + destruct (wordCount p =? countWords text).
      * rewrite getWordCountHistory_saveEntry. by split.
      * by rewrite getWordCountHistory_save.
    + by rewrite getWordCountHistory_save.
  - by rewrite getWordCountHistory_save.
Qed.

Lemma noRepeat_snoc (h : list Sample) (p q : Sample) :
  noRepeat (h ++ [p]) → wordCount p ≠ wordCount q → noRepeat ((h ++ [p]) ++ [q]).
Proof.
  induction h as [|a h IH]; intros Hh Hpq; [by simpl|].
  destruct h as [|b h]; simpl in *; [tauto|].
  destruct Hh as [Hab Hh]. split; [done|]. by apply IH.
Qed.

(** C7, on a store whose history item for the date key, if any, is a JSON
    array of samples: a save whose text has no word resets the series of
    the date key to empty; a save with a positive word count into an empty
    series stores a zero sample stamped [Date.now() - 1000] and then the
    sample of the new count, stamped by the later reading of the clock
    (which is the later timestamp unless the clock ran backwards); into a
    non-empty series it appends one sample when the count differs from the
    last one and nothing otherwise; hence saving the same text a second
    time changes nothing, and a series without two consecutive equal counts
    stays so. *)
Theorem history_idempotent (now1 now2 now3 now4 : Z) (d text : string) (v : View) :
  readable d (storage v) →
  let n := countWords text in
  let h := series d v in
  let v1 := JournalView_saveEntry now1 now2 d text v in
  let v2 := JournalView_saveEntry now3 now4 d text v1 in
  (n = 0 → series d v1 = []) ∧
  (0 < n → h = [] →
   series d v1 = [{| timestamp := (now1 - 1000)%Z; wordCount := 0 |};
                  {| timestamp := now2; wordCount := n |}] ∧
   ((now1 <= now2)%Z → (now1 - 1000 < now2)%Z)) ∧
  (0 < n → h ≠ [] →
   series d v1 = h ∨
   (series d v1 = h ++ [{| timestamp := now2; wordCount := n |}] ∧
    ∀ p, lastPoint h = Some p → wordCount p ≠ n)) ∧
  series d v2 = series d v1 ∧
  (noRepeat h → noRepeat (series d v1)).
Proof.
  intros Hread n h v1 v2.
  destruct (series_after_save now1 now2 d text v Hread) as [Hread1 H1].
  destruct (series_after_save now3 now4 d text v1 Hread1) as [_ H2].
  fold v1 in H1, H2. fold v2 in H2.
  cbv zeta in H1, H2. fold n h in H1. fold n in H2.
  destruct (0 <? n) eqn:Hn.
  - apply Nat.ltb_lt in Hn.
    destruct (lastPoint h) as [p|] eqn:Hlast.
    + apply lastPoint_Some_inv in Hlast as Hh. destruct Hh as [h0 Hh].
      destruct (wordCount p =? n) eqn:Hp.
      * apply Nat.eqb_eq in Hp.
        rewrite H2, H1, Hlast, <- Hp, Nat.eqb_refl.
        split; [lia|]. split; [intros _ Hnil; by rewrite Hnil in Hlast|].
        split; [by left|]. done.
      * apply Nat.eqb_neq in Hp.
        rewrite H2, H1, lastPoint_snoc. simpl. rewrite Nat.eqb_refl.
        split; [lia|]. split; [intros _ Hnil; by rewrite Hnil in Hlast|].
        split; [right; split; [done|]; by intros ? [= <-]|].
        split; [done|]. rewrite Hh. intros Hnr. by apply noRepeat_snoc.
    + apply lastPoint_nil_inv in Hlast as Hh.
      rewrite H2, H1.
      change (lastPoint [_; _]) with
        (Some {| timestamp := now2; wordCount := n |}).
      simpl. rewrite Nat.eqb_refl.
      split; [lia|]. split; [intros _ _; split; [done | lia]|].
      split; [done|]. split; [done|]. intros _. simpl. split; [lia|done].
  - apply Nat.ltb_ge in Hn. rewrite H2, H1.
    split; [done|]. split; [lia|]. split; [lia|]. done.
Qed.

Lemma history_idempotent_witness :
  let d := "2025-01-01" in
  let v0 := {| storage := ∅; entries := ∅; status := "Ready" |} in
  (series d (JournalView_saveEntry 5000 6000 d "hello world" v0)
   = [{| timestamp := 4000; wordCount := 0 |};
      {| timestamp := 6000; wordCount := 2 |}] ∧
   series d (JournalView_saveEntry 7000 8000 d "hello world"
               (JournalView_saveEntry 5000 6000 d "hello world" v0))
   = series d (JournalView_saveEntry 5000 6000 d "hello world" v0)) ∧
  (series d (JournalView_saveEntry 9000 9500 d "hello brave new world" written)
   = [{| timestamp := 4000; wordCount := 0 |};
      {| timestamp := 6000; wordCount := 2 |};
      {| timestamp := 9500; wordCount := 4 |}] ∧
   series d (JournalView_saveEntry 9600 9700 d "hello brave new world"
               (JournalView_saveEntry 9000 9500 d "hello brave new world" written))
   = series d (JournalView_saveEntry 9000 9500 d "hello brave new world" written)) ∧
  series d (JournalView_saveEntry 9000 9500 d "   " written) = [].
Proof.
  intros d v0.
  pose proof (history_idempotent 5000 6000 7000 8000 d "hello world" v0 eq_refl)
    as (_ & Hfirst & _ & Hsame & _).
  pose proof (history_idempotent 9000 9500 9600 9700 d "hello brave new world"
                written eq_refl)
    as (_ & _ & Happend & Hsame' & _).
  pose proof (history_idempotent 9000 9500 9600 9700 d "   " written eq_refl)
    as (Hreset & _).
  split; [split; [|exact Hsame]|split; [split; [|exact Hsame']|]].
  - apply Hfirst; [vm_compute; lia | reflexivity].
  - destruct Happend as [Hkeep|[Happ _]]; [vm_compute; lia | discriminate | |].
    + vm_compute in Hkeep. discriminate Hkeep.
    + exact Happ.
  - apply Hreset. reflexivity.
Defined.

Example history_first_save :
  series "2025-01-01"
    (JournalView_saveEntry 5000 6000 "2025-01-01" "hello world"
       {| storage := ∅; entries := ∅; status := "Ready" |})
  = [{| timestamp := 4000; wordCount := 0 |};
     {| timestamp := 6000; wordCount := 2 |}].
Proof. vm_compute. reflexivity. Qed.

(** A history item that cannot be parsed: the save stores the text, the
    exception is caught, and the history item and the [entries] state stay
    as they were. *)
Example save_on_unparsable_history :
  let v := {| storage := {[ historyKey "2025-01-01" := Text "not json" ]};
              entries := ∅; status := "Ready" |} in
  let v1 := JournalView_saveEntry 5000 6000 "2025-01-01" "hello world" v in
  status v1 = "Save failed" ∧
  entries v1 = ∅ ∧
  storage v1 !! historyKey "2025-01-01" = Some (Text "not json") ∧
  storage v1 !! entryKey "2025-01-01" = Some (Text "hello world").
Proof. vm_compute. by repeat split. Qed.

End JournalFacts.

(** ** The word cloud *)

Module WordCloudFacts.
Import Analyzer WordCloud WordCloudSpec.

Example matchAll_sample :
  matchAll (Js.toLowerCase "The cat sat; the CAT ran to covid19 on a mat_1 mat")
  = ["the"; "cat"; "sat"; "the"; "cat"; "ran"; "mat"].
Proof. vm_compute. reflexivity. Qed.

Example words_sample :
  (words "The cat sat; the CAT ran to covid19 on a mat_1 mat, sat, cat").*1
  = ["cat"; "sat"; "ran"; "mat"].
Proof. vm_compute. reflexivity. Qed.

(** *** Sorting by descending count *)

Lemma insertDesc_perm (x : string * nat) (l : list (string * nat)) :
  insertDesc x l ≡ₚ x :: l.
Proof.
  induction l as [|y l IH]; simpl; [done|].
  destruct (y.2 <=? x.2); [done|].
  rewrite IH. apply Permutation_swap.
Qed.

Lemma sortDesc_perm (l : list (string * nat)) : sortDesc l ≡ₚ l.
Proof.
  induction l as [|x l IH]; simpl; [done|].
  by rewrite insertDesc_perm, IH.
Qed.

Lemma insertDesc_sorted (x : string * nat) (l : list (string * nat)) :
  StronglySorted (λ a b, b.2 ≤ a.2) l →
  StronglySorted (λ a b, b.2 ≤ a.2) (insertDesc x l).
Proof.
  induction 1 as [|y l Hl IH Hy]; simpl.
  - repeat constructor.
  - destruct (y.2 <=? x.2) eqn:Hyx.
    + apply Nat.leb_le in Hyx. constructor; [by constructor|].
      constructor; [done|].
      eapply Forall_impl; [exact Hy|]. simpl. intros; lia.
    + apply Nat.leb_gt in Hyx. constructor; [done|].
      rewrite insertDesc_perm. constructor; [lia | done].
Qed.

Lemma sortDesc_sorted (l : list (string * nat)) :
  StronglySorted (λ a b, b.2 ≤ a.2) (sortDesc l).
Proof.
  induction l as [|x l IH]; simpl; [constructor|].
  by apply insertDesc_sorted.
Qed.

Lemma insertDesc_filter (c : nat) (x : string * nat) (l : list (string * nat)) :
  List.filter (hasCount c) (insertDesc x l)
  = List.filter (hasCount c) (x :: l).
Proof.
  induction l as [|y l IH]; [done|].
  cbn [insertDesc]. destruct (y.2 <=? x.2) eqn:Hyx; [done|].
  apply Nat.leb_gt in Hyx.
  cbn [List.filter] in *. rewrite IH.
  unfold hasCount.
  destruct (x.2 =? c) eqn:Hx, (y.2 =? c) eqn:Hy; try done.
  apply Nat.eqb_eq in Hx. apply Nat.eqb_eq in Hy. lia.
Qed.

(** The sort is stable: the entries of one count keep their order. *)
Lemma sortDesc_stable (c : nat) (l : list (string * nat)) :
  List.filter (hasCount c) (sortDesc l) = List.filter (hasCount c) l.
Proof.
  induction l as [|x l IH]; [done|].
  cbn [sortDesc foldr]. rewrite insertDesc_filter.
  cbn [List.filter]. fold (sortDesc l). by rewrite IH.
Qed.

(** *** Font sizes *)

Lemma Qc_of_Z_le (n m : Z) : (n ≤ m)%Z → (Qc_of_Z n ≤ Qc_of_Z m)%Qc.
Proof. apply Z2Qc_inj_le. Qed.

Lemma Qc_of_Z_lt (n m : Z) : (n < m)%Z → (Qc_of_Z n < Qc_of_Z m)%Qc.
Proof. apply Z2Qc_inj_lt. Qed.

Lemma Qc_of_nat_sub_nonneg (a b : nat) :
  a ≤ b → (0 ≤ Qc_of_Z (Z.of_nat b - Z.of_nat a))%Qc.
Proof. intros. rewrite <- Z2Qc_inj_0. apply Qc_of_Z_le. lia. Qed.

Lemma fontSizeOf_equal (n : nat) : fontSizeOf n n n = Qc_of_Z 26.
Proof.
  unfold fontSizeOf. rewrite Nat.ltb_irrefl, Nat.eqb_refl.
  apply Qc_is_canon. reflexivity.
Qed.

Lemma fontSizeOf_scale (lo hi n : nat) :
  lo < hi →
  (fontSizeOf lo hi n * Qc_of_Z (Z.of_nat hi - Z.of_nat lo)
   = Qc_of_Z (16 * (Z.of_nat hi - Z.of_nat lo) + 20 * (Z.of_nat n - Z.of_nat lo)))%Qc.
Proof.
  intros Hlt. unfold fontSizeOf.
  apply Nat.ltb_lt in Hlt as Hb. rewrite Hb.
  set (a := Qc_of_Z (Z.of_nat n - Z.of_nat lo)).
  set (b := Qc_of_Z (Z.of_nat hi - Z.of_nat lo)).
  assert (Hb0 : b ≠ 0%Qc).
  { unfold b. rewrite <- Z2Qc_inj_0. intros H%Z2Qc_inj. lia. }
  rewrite Z2Qc_inj_add, !Z2Qc_inj_mul. fold a b.
  change (Qc_of_Z minFontSize) with (Qc_of_Z 16).
  change (Qc_of_Z (maxFontSize - minFontSize)) with (Qc_of_Z 20).
  field. exact Hb0.
Qed.

Lemma fontSizeOf_bounds (lo hi n : nat) :
  lo ≤ n → n ≤ hi →
  (Qc_of_Z 16 ≤ fontSizeOf lo hi n)%Qc ∧ (fontSizeOf lo hi n ≤ Qc_of_Z 36)%Qc.
Proof.
  intros Hlo Hhi. unfold fontSizeOf.
  destruct (lo <? hi) eqn:Hlt.
  - apply Nat.ltb_lt in Hlt.
    set (a := Qc_of_Z (Z.of_nat n - Z.of_nat lo)).
    set (b := Qc_of_Z (Z.of_nat hi - Z.of_nat lo)).
    assert (Ha : (0 ≤ a)%Qc) by (by apply Qc_of_nat_sub_nonneg).
    assert (Hb : (0 < b)%Qc).
    { unfold b. rewrite <- Z2Qc_inj_0. apply Qc_of_Z_lt. lia. }
    assert (Hab : (a ≤ b)%Qc) by (apply Qc_of_Z_le; lia).
    assert (Hs0 : (0 ≤ a / b)%Qc).
    { apply Qcmult_nonneg_nonneg; [done|]. apply Qclt_le_weak. by apply Qcinv_pos. }
    assert (Hs1 : (a / b ≤ 1)%Qc).
    { apply (Qcmult_le_mono_pos_r _ _ b Hb).
      rewrite Qcmult_1_l, Qcmult_comm, Qcmult_div_r; [done|].
      intros ->. by apply Qclt_not_eq in Hb. }
    change (Qc_of_Z minFontSize) with (Qc_of_Z 16).
    change (Qc_of_Z (maxFontSize - minFontSize)) with (Qc_of_Z 20).
    assert (H20 : (0 ≤ Qc_of_Z 20)%Qc) by (rewrite <- Z2Qc_inj_0; by apply Qc_of_Z_le).
    split.
    + rewrite <- (Qcplus_0_r (Qc_of_Z 16)) at 1.
      apply Qcplus_le_mono_l. by apply Qcmult_nonneg_nonneg.
    + change 36%Z with (16 + 20)%Z. rewrite Z2Qc_inj_add.
      apply Qcplus_le_mono_l.
      rewrite <- (Qcmult_1_l (Qc_of_Z 20)) at 2.
      by apply Qcmult_le_mono_nonneg_r.
  - assert (lo = hi) as -> by (apply Nat.ltb_ge in Hlt; lia).
    rewrite Nat.eqb_refl.
    assert (H : (Qc_of_Z (minFontSize + maxFontSize) / Qc_of_Z 2)%Qc = Qc_of_Z 26)
      by (apply Qc_is_canon; reflexivity).
    rewrite H. split; apply Qc_of_Z_le; lia.
Qed.

(** *** Counting *)

Lemma bump_keys (word : string) (m : list (string * nat)) :
  (bump word m).*1 = if inKeys word m.*1 then m.*1 else m.*1 ++ [word].
Proof.
  induction m as [|[w n] m IH]; [done|].
  cbn [bump fmap list_fmap inKeys existsb fst].
  destruct (String.eqb w word) eqn:Hw; [done|].
  cbn [orb fmap list_fmap fst]. fold (inKeys word m.*1).
  change (list_fmap _ _ fst ?l) with (l.*1). rewrite IH.
  by destruct (inKeys word m.*1).
Qed.

Lemma get_bump (word w : string) (m : list (string * nat)) :
  get w (bump word m) =
  if String.eqb word w then Some (default 0 (get w m) + 1) else get w m.
Proof.
  induction m as [|[k n] m IH].
  - cbn [bump get]. by destruct (String.eqb word w).
  - cbn [bump get].
    destruct (String.eqb k word) eqn:Hk.
    + apply String.eqb_eq in Hk as ->. cbn [get].
      by destruct (String.eqb word w).
    + cbn [get]. destruct (String.eqb k w) eqn:Hkw.
      * apply String.eqb_eq in Hkw as ->.
        by rewrite (proj2 (String.eqb_neq word w))
          by (intros ->; by rewrite String.eqb_refl in Hk).
      * exact IH.
Qed.

Lemma filter_filter_bool {A} (p q : A → bool) (l : list A) :
  List.filter p (List.filter q l) = List.filter (λ x, q x && p x) l.
Proof.
  induction l as [|x l IH]; [done|]. simpl.
  destruct (q x); simpl; [|done]. rewrite IH. by destruct (p x).
Qed.

Lemma inKeys_app (word : string) (k1 k2 : list string) :
  inKeys word (k1 ++ k2) = inKeys word k1 || inKeys word k2.
Proof. apply existsb_app. Qed.

Lemma countWordsOf_keys (ts : list string) (m : list (string * nat)) :
  (foldl countStep m ts).*1 =
  m.*1 ++ List.filter (λ y, negb (inKeys y m.*1))
            (firstSeen (List.filter (λ w, negb (isStopWord w)) ts)).
Proof.
  revert m; induction ts as [|t ts IH]; intros m.
  - simpl. by rewrite app_nil_r.
  - cbn [foldl List.filter]. rewrite IH. unfold countStep.
    destruct (negb (isStopWord t)); [|done].
    rewrite bump_keys. cbn [firstSeen List.filter].
    destruct (inKeys t m.*1) eqn:Hin; cbn [negb].
    + f_equal. rewrite filter_filter_bool. apply filter_ext. intros y.
      destruct (String.eqb t y) eqn:Hty; [|done].
      apply String.eqb_eq in Hty as <-. by rewrite Hin.
    + rewrite <- app_assoc. f_equal. cbn [app]. f_equal.
      rewrite filter_filter_bool. apply filter_ext. intros y.
      rewrite inKeys_app. cbn [inKeys existsb]. rewrite orb_false_r.
      rewrite negb_orb. apply andb_comm.
Qed.

Lemma occurrences_cons (w t : string) (l : list string) :
  occurrences w (t :: l) = (if String.eqb w t then 1 else 0) + occurrences w l.
Proof. unfold occurrences. simpl. by destruct (String.eqb w t). Qed.

Lemma countWordsOf_get (w : string) (ts : list string) (m : list (string * nat)) :
  get w (foldl countStep m ts) =
  let occ := occurrences w (List.filter (λ w, negb (isStopWord w)) ts) in
  if occ =? 0 then get w m else Some (default 0 (get w m) + occ).
Proof.
  revert m; induction ts as [|t ts IH]; intros m; [done|].
  cbn [foldl List.filter]. rewrite IH. cbv zeta. unfold countStep.
  destruct (negb (isStopWord t)); [|done].
  rewrite occurrences_cons, get_bump, (String.eqb_sym w t).
  set (occ := occurrences w _).
  destruct (String.eqb t w); cbn [Nat.add].
  - destruct (occ =? 0) eqn:Hocc.
    + apply Nat.eqb_eq in Hocc. rewrite Hocc. simpl. f_equal; lia.
    + simpl. f_equal; lia.
  - done.
Qed.


(** *** Tokens *)

Lemma lower_is_word (c : ascii) : Js.isLowerAlpha c = true → Js.isWordChar c = true.
Proof.
  unfold Js.isLowerAlpha, Js.isWordChar. intros H. rewrite H.
  by rewrite !orb_true_r.
Qed.

Lemma append_cons (c : ascii) (u t : string) :
  String c u +:+ t = String c (u +:+ t).
Proof. reflexivity. Qed.

Lemma append_nil_l (t : string) : "" +:+ t = t.
Proof. reflexivity. Qed.

Lemma append_nil_r (s : string) : s +:+ "" = s.
Proof. induction s as [|c s IH]; [done|]. by rewrite append_cons, IH. Qed.

Lemma length_append (u t : string) :
  String.length (u +:+ t) = String.length u + String.length t.
Proof.
  induction u as [|c u IH]; [done|].
  rewrite append_cons. cbn [String.length]. by rewrite IH.
Qed.

Lemma wordSpan_app (s : string) :
  s = (wordSpan s).1 +:+ (wordSpan s).2.
Proof.
  induction s as [|c r IH]; [done|]. simpl.
  destruct (Js.isWordChar c); [|done].
  destruct (wordSpan r) as [u t]. simpl in *. rewrite append_cons. congruence.
Qed.

Lemma wordSpan_rest (s : string) : isWord (head (wordSpan s).2) = false.
Proof.
  induction s as [|c r IH]; [done|]. simpl.
  destruct (Js.isWordChar c) eqn:Hc; [|by simpl].
  by destruct (wordSpan r) as [u t].
Qed.

Lemma wordSpan_cons (c : ascii) (r : string) :
  Js.isWordChar c = true →
  wordSpan (String c r) = (String c (wordSpan r).1, (wordSpan r).2).
Proof. intros Hc. simpl. rewrite Hc. by destruct (wordSpan r). Qed.

Lemma append_snoc (cur : string) (c : ascii) (u : string) :
  (cur +:+ String c "") +:+ u = cur +:+ String c u.
Proof.
  induction cur as [|a cur IH]; [done|].
  by rewrite !append_cons, IH.
Qed.

Lemma wordRunsFrom_span (cur s : string) :
  wordRunsFrom cur s =
  (if Js.truthy (cur +:+ (wordSpan s).1) then [cur +:+ (wordSpan s).1] else [])
  ++ match (wordSpan s).2 with
     | "" => []
     | String _ r => wordRunsFrom "" r
     end.
Proof.
  revert cur; induction s as [|c r IH]; intros cur.
  - cbn [wordRunsFrom wordSpan fst snd]. rewrite append_nil_r.
    by rewrite app_nil_r.
  - cbn [wordRunsFrom]. destruct (Js.isWordChar c) eqn:Hc.
    + rewrite wordSpan_cons by done. cbn [fst snd]. rewrite IH.
      by rewrite append_snoc.
    + cbn [wordSpan]. rewrite Hc. cbn [fst snd]. by rewrite append_nil_r.
Qed.

(** Skipping [k] characters. *)
Lemma matchAllFrom_skip (u t : string) (prev : option ascii) :
  matchAllFrom prev (String.length u) (u +:+ t) = matchAllFrom (last prev u) 0 t.
Proof.
  revert prev; induction u as [|c u IH]; intros prev; simpl.
  - by destruct t.
  - apply IH.
Qed.

Lemma takeLower_nonlower (s : string) :
  match head s with Some c => Js.isLowerAlpha c = false | None => True end →
  takeLower s = ("", s).
Proof. destruct s as [|c r]; [done|]. simpl. by intros ->. Qed.

Lemma matchAt_after_word (prev : option ascii) (s : string) :
  isWord prev = true → matchAt prev s = None.
Proof.
  intros Hprev. unfold matchAt.
  destruct (takeLower s) as [run rest] eqn:Htl.
  destruct s as [|c r].
  - simpl in Htl. injection Htl as <- <-. simpl.
    by rewrite andb_false_r.
  - simpl in Htl |- *. destruct (Js.isLowerAlpha c) eqn:Hc.
    + unfold wordBoundary at 1. rewrite Hprev. simpl.
      by rewrite (lower_is_word c Hc).
    + injection Htl as <- <-. simpl. by rewrite andb_false_r.
Qed.

(** Inside a word nothing matches. *)
Lemma matchAllFrom_inside (u t : string) (prev : option ascii) :
  isWord prev = true →
  allWord u = true →
  matchAllFrom prev 0 (u +:+ t) = matchAllFrom (last prev u) 0 t.
Proof.
  revert prev; induction u as [|c u IH]; intros prev Hprev Hu; simpl.
  - by destruct t.
  - simpl in Hu. apply andb_true_iff in Hu as [Hc Hu].
    change (matchAt prev (String c (u +:+ t)))
      with (matchAt prev (String c u +:+ t)).
    rewrite matchAt_after_word by done.
    apply IH; [exact Hc | exact Hu].
Qed.

Lemma wordSpan_allWord (s : string) : allWord (wordSpan s).1 = true.
Proof.
  induction s as [|c r IH]; [done|]. simpl.
  destruct (Js.isWordChar c) eqn:Hc; [|done].
  destruct (wordSpan r) as [u t]. simpl in *. by rewrite Hc.
Qed.

Lemma allLower_allWord (s : string) : allLowerAlpha s = true → allWord s = true.
Proof.
  induction s as [|c r IH]; [done|]. simpl.
  intros [Hc Hr]%andb_true_iff. by rewrite (lower_is_word c Hc), IH.
Qed.

Lemma last_word (prev : option ascii) (c : ascii) (u : string) :
  allWord (String c u) = true → isWord (last prev (String c u)) = true.
Proof.
  revert prev c; induction u as [|d u IH]; intros prev c Hu.
  - simpl in *. by rewrite andb_true_r in Hu.
  - simpl in Hu. apply andb_true_iff in Hu as [_ Hu].
    change (last prev (String c (String d u))) with (last (Some c) (String d u)).
    by apply IH.
Qed.

Lemma takeLower_span (u t : string) :
  allWord u = true →
  isWord (head t) = false →
  if allLowerAlpha u
  then takeLower (u +:+ t) = (u, t)
  else ∃ run x rest,
      takeLower (u +:+ t) = (run, String x rest) ∧
      Js.isWordChar x = true ∧ allLowerAlpha run = true.
Proof.
  intros Hu Ht. induction u as [|c u IH].
  - simpl. apply takeLower_nonlower.
    destruct t as [|x t]; [done|]. simpl in *.
    destruct (Js.isLowerAlpha x) eqn:Hx; [|done].
    by rewrite (lower_is_word x Hx) in Ht.
  - simpl in Hu. apply andb_true_iff in Hu as [Hc Hu]. specialize (IH Hu).
    simpl. destruct (Js.isLowerAlpha c) eqn:Hlc; simpl.
    + destruct (allLowerAlpha u).
      * by rewrite IH.
      * destruct IH as (run & x & rest & -> & Hx & Hrun).
        exists (String c run), x, rest. simpl. by rewrite Hlc, Hrun.
    + by exists "", c, (u +:+ t).
Qed.

Lemma matchAt_word (prev : option ascii) (c : ascii) (r : string) :
  isWord prev = false →
  Js.isWordChar c = true →
  matchAt prev (String c r) =
  if alphabetic3 (wordSpan (String c r)).1
  then Some (wordSpan (String c r)).1
  else None.
Proof.
  intros Hprev Hc.
  pose proof (wordSpan_app (String c r)) as Happ.
  pose proof (wordSpan_rest (String c r)) as Hrest.
  pose proof (wordSpan_allWord (String c r)) as Hall.
  rewrite wordSpan_cons in * by done. cbn [fst snd] in *.
  set (u := (wordSpan r).1) in *. set (t := (wordSpan r).2) in *.
  pose proof (takeLower_span (String c u) t Hall Hrest) as Htl.
  unfold matchAt, alphabetic3. rewrite Happ.
  assert (Hb1 : wordBoundary prev (head (String c u +:+ t)) = true).
  { unfold wordBoundary. rewrite Hprev. simpl. by rewrite Hc. }
  rewrite Hb1. cbn [andb].
  destruct (allLowerAlpha (String c u)) eqn:Hlow.
  - rewrite Htl. cbn [andb].
    assert (Hb2 : wordBoundary (last prev (String c u)) (head t) = true).
    { unfold wordBoundary. by rewrite (last_word _ _ _ Hall), Hrest. }
    rewrite Hb2. by rewrite andb_true_r.
  - destruct Htl as (run & x & rest & -> & Hx & Hrun). cbn [andb].
    destruct run as [|a run]; [done|].
    assert (Hb2 : wordBoundary (last prev (String a run)) (head (String x rest)) = false).
    { unfold wordBoundary.
      rewrite (last_word _ _ _ (allLower_allWord _ Hrun)). simpl. by rewrite Hx. }
    rewrite Hb2. by rewrite andb_false_r.
Qed.

Lemma matchAt_nonword (prev : option ascii) (c : ascii) (r : string) :
  Js.isWordChar c = false → matchAt prev (String c r) = None.
Proof.
  intros Hc. unfold matchAt.
  rewrite takeLower_nonlower.
  - simpl. by rewrite andb_false_r.
  - simpl. destruct (Js.isLowerAlpha c) eqn:Hl; [|done].
    by rewrite (lower_is_word c Hl) in Hc.
Qed.

Lemma matchAll_alphabeticWords_fuel (n : nat) :
  ∀ (s : string) (prev : option ascii),
    String.length s ≤ n →
    isWord prev = false →
    matchAllFrom prev 0 s = List.filter alphabetic3 (wordRunsFrom "" s).
Proof.
  induction n as [|n IH]; intros s prev Hlen Hprev.
  - destruct s; [done | simpl in Hlen; lia].
  - destruct s as [|c r]; [done|].
    destruct (Js.isWordChar c) eqn:Hc.
    + cbn [matchAllFrom]. rewrite matchAt_word by done.
      rewrite wordRunsFrom_span.
      pose proof (wordSpan_app (String c r)) as Happ.
      pose proof (wordSpan_rest (String c r)) as Hrest.
      pose proof (wordSpan_allWord (String c r)) as Hall.
      rewrite wordSpan_cons in * by done. cbn [fst snd] in *.
      set (u := (wordSpan r).1) in *. set (t := (wordSpan r).2) in *.
      injection Happ as Hr.
      assert (Hlen' : String.length u + String.length t ≤ n).
      { cbn [String.length] in Hlen. rewrite Hr, length_append in Hlen. lia. }
      assert (Htail : matchAllFrom (last (Some c) u) 0 t
                      = List.filter alphabetic3
                          match t with "" => [] | String _ r' => wordRunsFrom "" r' end).
      { destruct t as [|x r']; [done|]. simpl in Hrest.
        cbn [matchAllFrom]. rewrite matchAt_nonword by done.
        apply IH; [simpl in Hlen'; lia | simpl; exact Hrest]. }
      change ("" +:+ String c u) with (String c u).
      cbn [Js.truthy]. rewrite List.filter_app. cbn [List.filter].
      destruct (alphabetic3 (String c u)) eqn:Hok.
      * cbn [app]. f_equal.
        rewrite Hr. cbn [String.length].
        replace (S (String.length u) - 1) with (String.length u) by lia.
        rewrite matchAllFrom_skip. exact Htail.
      * cbn [app]. rewrite Hr at 1.
        simpl in Hall. apply andb_true_iff in Hall as [_ Hall].
        rewrite matchAllFrom_inside by (simpl; done). exact Htail.
    + cbn [matchAllFrom]. rewrite matchAt_nonword by done.
      rewrite IH by (simpl in *; first [lia | done]).
      cbn [wordRunsFrom]. by rewrite Hc.
Qed.


Lemma matchAll_alphabeticWords (s : string) : matchAll s = alphabeticWords s.
Proof.
  unfold matchAll, alphabeticWords, wordRuns.
  by apply (matchAll_alphabeticWords_fuel (String.length s)).
Qed.

Lemma occurrences_filter_stop (w : string) (tokens : list string) :
  occurrences w (List.filter (λ t, negb (isStopWord t)) tokens)
  = if isStopWord w then 0 else occurrences w tokens.
Proof.
  induction tokens as [|t tokens IH].
  - by destruct (isStopWord w).
  - cbn [List.filter]. destruct (isStopWord t) eqn:Ht; cbn [negb].
    + rewrite IH, occurrences_cons.
      destruct (String.eqb w t) eqn:Hwt; [|done].
      apply String.eqb_eq in Hwt as ->. by rewrite Ht.
    + rewrite !occurrences_cons, IH.
      destruct (isStopWord w) eqn:Hw; [|done].
      destruct (String.eqb w t) eqn:Hwt; [|done].
      apply String.eqb_eq in Hwt as ->. congruence.
Qed.

Lemma countWordsOf_lookup (w : string) (tokens : list string) :
  get w (countWordsOf tokens) =
  if isStopWord w || (occurrences w tokens =? 0) then None
  else Some (occurrences w tokens).
Proof.
  unfold countWordsOf. rewrite countWordsOf_get. cbv zeta.
  rewrite occurrences_filter_stop. cbn [get default].
  destruct (isStopWord w); [done|]. cbn [orb].
  by destruct (occurrences w tokens =? 0).
Qed.

Lemma countWordsOf_order (tokens : list string) :
  (countWordsOf tokens).*1
  = firstSeen (List.filter (λ t, negb (isStopWord t)) tokens).
Proof.
  unfold countWordsOf. rewrite countWordsOf_keys. cbn [fmap list_fmap app].
  rewrite <- (List.filter_ext (λ _, true)); [|done].
  generalize (firstSeen (List.filter (λ t, negb (isStopWord t)) tokens)).
  intros l. induction l as [|x l IH]; [done|]. simpl. by rewrite IH.
Qed.

Lemma StronglySorted_take {A} (R : A → A → Prop) (n : nat) (l : list A) :
  StronglySorted R l → StronglySorted R (take n l).
Proof.
  intros Hl. revert n. induction Hl as [|x l Hl IH Hx]; intros [|n]; simpl;
    try constructor.
  - apply IH.
  - eapply Forall_take. exact Hx.
Qed.

Lemma sorted_last_least (first : string * nat) (l : list (string * nat)) :
  StronglySorted (λ a b, b.2 ≤ a.2) (first :: l) →
  ∀ e, e ∈ first :: l →
       (List.last (first :: l) first).2 ≤ e.2 ∧ e.2 ≤ first.2.
Proof.
  intros Hs e He. split.
  - revert e He. induction Hs as [|x l' Hl IH Hx]; intros e He.
    + by apply elem_of_nil in He.
    + destruct l' as [|y l'].
      * apply list_elem_of_singleton in He as ->. simpl. lia.
      * change (List.last (x :: y :: l') first) with (List.last (y :: l') first).
        apply elem_of_cons in He as [->|He].
        -- assert (Hin : List.last (y :: l') first ∈ y :: l').
           { clear. revert y. induction l' as [|z l' IHl]; intros y.
             - simpl. left.
             - change (List.last (y :: z :: l') first)
                 with (List.last (z :: l') first).
               right. apply IHl. }
           rewrite Forall_forall in Hx. by apply Hx.
        -- by apply IH.
  - apply StronglySorted_inv in Hs as [_ Hx].
    apply elem_of_cons in He as [->|He]; [lia|].
    rewrite Forall_forall in Hx. by apply Hx.
Qed.


Lemma sortedWords_sorted (wordCounts : list (string * nat)) :
  StronglySorted (λ a b, b.2 ≤ a.2) (sortedWords wordCounts).
Proof. apply StronglySorted_take, sortDesc_sorted. Qed.

Lemma words_spec (text : string) :
  let kept := sortedWords (countWordsOf (matchAll (Js.toLowerCase text))) in
  ∃ lo hi,
    words text = List.map (λ e, (e.1, fontSizeOf lo hi e.2)) kept ∧
    (∀ e, e ∈ kept → lo ≤ e.2 ∧ e.2 ≤ hi) ∧
    (∀ first, List.head kept = Some first →
              hi = first.2 ∧ lo = (List.last kept first).2).
Proof.
  intros kept. unfold words. fold kept.
  pose proof (sortedWords_sorted (countWordsOf (matchAll (Js.toLowerCase text))))
    as Hsorted. fold kept in Hsorted.
  destruct kept as [|first rest].
  - exists 0, 0. split; [done|]. split; [|done].
    intros e He. by apply elem_of_nil in He.
  - exists (List.last (first :: rest) first).2, first.2.
    split; [|split].
    + apply map_ext. by intros [w c].
    + by apply sorted_last_least.
    + by intros ? [= <-].
Qed.

(** C9 as stated fails: in "covid19 again" the letters of "covid" are an
    alphabetic run of length 5, and the builder does not take it as a
    token, because the digit that follows is a word character and the
    pattern asks for a word boundary there. *)
Lemma alphabetic_run_not_token :
  alphabeticRuns (Js.toLowerCase "covid19 again") = ["covid"; "again"] ∧
  matchAll (Js.toLowerCase "covid19 again") = ["again"] ∧
  (words "covid19 again").*1 = ["again"] ∧
  matchAll (Js.toLowerCase "covid19 again")
  ≠ alphabeticRuns (Js.toLowerCase "covid19 again").
Proof.
  assert (Hspec : alphabeticRuns (Js.toLowerCase "covid19 again")
                  = ["covid"; "again"]) by (vm_compute; reflexivity).
  assert (Hcode : matchAll (Js.toLowerCase "covid19 again") = ["again"])
    by (vm_compute; reflexivity).
  split; [exact Hspec|]. split; [exact Hcode|].
  split; [vm_compute; reflexivity|].
  rewrite Hspec, Hcode. intros H. inversion H.
Qed.

(** C9, amended: for every text the builder takes as tokens, after
    case-folding, the alphabetic runs of length 3 or more that are whole
    words (delimited on both sides by a character that is not a letter, a
    digit or an underscore, or by an end of the text); it discards the stop
    words and counts the others, in the order in which they are first seen;
    it keeps at most 50 terms, in descending order of count, terms of equal
    count in first-seen order; and it gives each kept term a font size on
    the linear scale from 16 (the least kept count) to 36 (the greatest),
    which is 26 for every term when all kept counts are equal. *)
Theorem wordCloud_builder (text : string) :
  let tokens := matchAll (Js.toLowerCase text) in
  let wordCounts := countWordsOf tokens in
  let kept := sortedWords wordCounts in
  tokens = alphabeticWords (Js.toLowerCase text) ∧
  wordCounts.*1 = firstSeen (List.filter (λ t, negb (isStopWord t)) tokens) ∧
  (∀ w, get w wordCounts =
        if isStopWord w || (occurrences w tokens =? 0) then None
        else Some (occurrences w tokens)) ∧
  kept = take 50 (sortDesc wordCounts) ∧
  List.length kept ≤ 50 ∧
  sortDesc wordCounts ≡ₚ wordCounts ∧
  StronglySorted (λ a b, b.2 ≤ a.2) (sortDesc wordCounts) ∧
  (∀ c, List.filter (hasCount c) (sortDesc wordCounts)
        = List.filter (hasCount c) wordCounts) ∧
  ∃ lo hi,
    words text = List.map (λ e, (e.1, fontSizeOf lo hi e.2)) kept ∧
    (∀ e, e ∈ kept → lo ≤ e.2 ∧ e.2 ≤ hi) ∧
    (∀ first, List.head kept = Some first →
              hi = first.2 ∧ lo = (List.last kept first).2) ∧
    (∀ e, e ∈ kept →
          (Qc_of_Z 16 ≤ fontSizeOf lo hi e.2)%Qc ∧
          (fontSizeOf lo hi e.2 ≤ Qc_of_Z 36)%Qc ∧
          (lo < hi →
           (fontSizeOf lo hi e.2 * Qc_of_Z (Z.of_nat hi - Z.of_nat lo)
            = Qc_of_Z (16 * (Z.of_nat hi - Z.of_nat lo)
                       + 20 * (Z.of_nat e.2 - Z.of_nat lo)))%Qc) ∧
          (lo = hi → fontSizeOf lo hi e.2 = Qc_of_Z 26)).
Proof.
  intros tokens wordCounts kept.
  split; [apply matchAll_alphabeticWords|].
  split; [apply countWordsOf_order|].
  split; [intros w; apply countWordsOf_lookup|].
  split; [done|].
  split; [unfold kept, sortedWords; rewrite length_take; lia|].
  split; [apply sortDesc_perm|].
  split; [apply sortDesc_sorted|].
  split; [intros c; apply sortDesc_stable|].
  destruct (words_spec text) as (lo & hi & Hwords & Hrange & Hends).
  exists lo, hi. split; [exact Hwords|]. split; [exact Hrange|].
  split; [exact Hends|].
  intros e He. destruct (Hrange e He) as [Hlo Hhi].
  destruct (fontSizeOf_bounds lo hi e.2 Hlo Hhi) as [H16 H36].
  split; [exact H16|]. split; [exact H36|]. split.
  - intros Hlt. by apply fontSizeOf_scale.
  - intros ->. assert (e.2 = hi) as -> by lia. apply fontSizeOf_equal.
Qed.

End WordCloudFacts.

(** ** The Sync Coordinator: sessions, fallback and merge *)

Module SyncFacts.
Import Supabase DataStore DataStoreFacts.

Lemma entryKey_not_flag (d : string) : entryKey d ≠ IS_LOGGED_IN_KEY.
Proof. discriminate. Qed.

Lemma getEntry_logged_in (net : bool) (d : string) (w : World) (email : string) :
  currentEmail (localStorage w) = Some email →
  getEntry net d w =
  match select_single net (remote w) email d with
  | Ok data =>
      (Returned (Some data),
       {| localStorage := <[entryKey d := data]> (localStorage w);
          remote := remote w |})
  | Err code =>
      if String.eqb code PGRST116
      then (Returned (Some ""),
            {| localStorage := <[entryKey d := ""]> (localStorage w);
               remote := remote w |})
      else (Returned (Some (Js.orEmpty (localStorage w !! entryKey d))), w)
  end.
Proof. intros Hemail. unfold getEntry. by rewrite Hemail. Qed.

(** When the remote read fails, a logged-in user gets back what the last
    [saveEntry] wrote, whether or not that save reached the remote store,
    and the read changes nothing. *)
Theorem getEntry_falls_back_on_cache (net : bool) (now d c : string)
  (w : World) (email : string) :
  currentEmail (localStorage w) = Some email →
  getEntry false d (saveEntry net now d c w).2
  = (Returned (Some c), (saveEntry net now d c w).2).
Proof.
  intros Hemail.
  rewrite (saveEntry_logged_in _ _ _ _ _ email) by done. cbn [snd].
  rewrite (getEntry_logged_in _ _ _ email)
    by (cbn [localStorage]; by rewrite currentEmail_insert_entry).
  cbn [select_single localStorage]. change (String.eqb UNREACHABLE PGRST116) with false.
  cbv iota. by rewrite lookup_insert_eq.
Qed.

Lemma getEntry_falls_back_on_cache_witness :
  getEntry false "2025-01-01"
    (saveEntry true "2025-01-01T10:00:00.000Z" "2025-01-01" "dear diary"
       midlife).2
  = (Returned (Some "dear diary"),
     (saveEntry true "2025-01-01T10:00:00.000Z" "2025-01-01" "dear diary"
        midlife).2).
Proof.
  apply (getEntry_falls_back_on_cache _ _ _ _ _ "ann@example.org").
  reflexivity.
Defined.

(** A read that reaches the remote store and finds no row for the date key
    answers the empty text and overwrites the cached item with it: content
    saved while the remote store was unreachable is gone from the cache
    afterwards, also for later offline reads. *)
Theorem getEntry_no_row_clears_cache (now d c : string) (w : World)
  (email : string) :
  currentEmail (localStorage w) = Some email →
  rowsOf (remote w) email !! d = None →
  ∃ w2,
    getEntry true d (saveEntry false now d c w).2 = (Returned (Some ""), w2) ∧
    localStorage w2 !! entryKey d = Some "" ∧
    getEntry false d w2 = (Returned (Some ""), w2).
Proof.
  intros Hemail Hrow.
  rewrite (saveEntry_logged_in _ _ _ _ _ email) by done. cbn [snd upsert fst].
  rewrite (getEntry_logged_in _ _ _ email)
    by (cbn [localStorage]; by rewrite currentEmail_insert_entry).
  cbn [select_single remote localStorage]. rewrite Hrow.
  change (String.eqb PGRST116 PGRST116) with true. cbv iota.
  eexists. split; [reflexivity|].
  cbn [localStorage]. split; [by rewrite lookup_insert_eq|].
  rewrite (getEntry_logged_in _ _ _ email)
    by (cbn [localStorage]; by rewrite !currentEmail_insert_entry).
  cbn [select_single localStorage].
  change (String.eqb UNREACHABLE PGRST116) with false. cbv iota.
  by rewrite lookup_insert_eq.
Qed.

Lemma getEntry_no_row_clears_cache_witness :
  ∃ w2,
    getEntry true "2025-01-02"
      (saveEntry false "2025-01-02T10:00:00.000Z" "2025-01-02" "dear diary"
         midlife).2 = (Returned (Some ""), w2) ∧
    localStorage w2 !! entryKey "2025-01-02" = Some "" ∧
    getEntry false "2025-01-02" w2 = (Returned (Some ""), w2).
Proof.
  apply (getEntry_no_row_clears_cache _ _ _ _ "ann@example.org");
    reflexivity.
Defined.



(** After a save that reached the remote store, an enumeration that reaches
    it too gives the date key the word count of the saved content, whatever
    the cache holds. *)
Theorem online_save_then_list (now d c : string) (w : World) (email : string) :
  currentEmail (localStorage w) = Some email →
  ∃ index,
    getAllEntries true (saveEntry true now d c w).2 = Returned index ∧
    index !! d = Some (countWords c).
Proof.
  intros Hemail.
  rewrite (saveEntry_logged_in _ _ _ _ _ email) by done. cbn [snd].
  edestruct getAllEntries_online as [index [Hget Hidx]];
    [|exists index; split; [exact Hget|]].
  { cbn [localStorage]. rewrite currentEmail_insert_entry. exact Hemail. }
  rewrite Hidx. cbn [remote]. by rewrite rowsOf_upsert.
Qed.

Lemma online_save_then_list_witness :
  ∃ index,
    getAllEntries true
      (saveEntry true "2025-01-01T10:00:00.000Z" "2025-01-01" "dear diary"
         midlife).2 = Returned index ∧
    index !! "2025-01-01" = Some (countWords "dear diary").
Proof.
  apply (online_save_then_list _ _ _ _ "ann@example.org"). reflexivity.
Defined.

(** An entry saved while the remote store was unreachable: a later
    enumeration that reaches the remote store merges it in from the cache,
    with the word count of its content when that is positive, provided the
    remote table has no row for the date key; when it has one, the word
    count of that older row is reported instead. *)
Theorem offline_save_then_list (now d c : string) (w : World) (email : string) :
  currentEmail (localStorage w) = Some email →
  ∃ index,
    getAllEntries true (saveEntry false now d c w).2 = Returned index ∧
    index !! d =
    match rowsOf (remote w) email !! d with
    | Some r => Some (word_count r)
    | None => if 0 <? countWords c then Some (countWords c) else None
    end.
Proof.
  intros Hemail.
  rewrite (saveEntry_logged_in _ _ _ _ _ email) by done. cbn [snd].
  edestruct getAllEntries_online as [index [Hget Hidx]];
    [|exists index; split; [exact Hget|]].
  { cbn [localStorage]. rewrite currentEmail_insert_entry. exact Hemail. }
  rewrite Hidx. cbn [remote upsert fst localStorage].
  destruct (rowsOf (remote w) email !! d); [done|].
  unfold localCount. by rewrite lookup_insert_eq.
Qed.

Lemma offline_save_then_list_witness :
  ∃ index,
    getAllEntries true
      (saveEntry false "2025-01-01T10:00:00.000Z" "2025-01-01" "dear diary"
         midlife).2 = Returned index ∧
    index !! "2025-01-01" =
    match rowsOf (remote midlife) "ann@example.org"
            !! "2025-01-01" with
    | Some r => Some (word_count r)
    | None =>
        if 0 <? countWords "dear diary" then Some (countWords "dear diary")
        else None
    end.
Proof.
  apply (offline_save_then_list _ _ _ _ "ann@example.org"). reflexivity.
Defined.

(** Last writer wins: a save that reaches the remote store leaves the cache
    and the remote table exactly as if the previous save of the same date
    key had never happened. *)
Theorem saveEntry_last_writer_wins (net : bool) (now1 now2 d c1 c2 : string)
  (w : World) (email : string) :
  currentEmail (localStorage w) = Some email →
  saveEntry true now2 d c2 (saveEntry net now1 d c1 w).2
  = saveEntry true now2 d c2 w.
Proof.
  intros Hemail.
  rewrite (saveEntry_logged_in net _ _ _ _ email) by done. cbn [snd].
  rewrite (saveEntry_logged_in true _ _ _ _ email)
    by (cbn [localStorage]; by rewrite currentEmail_insert_entry).
  rewrite (saveEntry_logged_in true _ _ _ w email) by done.
  cbn [localStorage remote]. f_equal. f_equal.
  - apply insert_insert_eq.
  - destruct net; cbn [upsert fst]; [|done].
    unfold rowsOf at 1. rewrite lookup_insert_eq. cbn [default]. unfold id.
    by rewrite !insert_insert_eq.
Qed.

Lemma saveEntry_last_writer_wins_witness :
  saveEntry true "2025-01-01T11:00:00.000Z" "2025-01-01" "second draft"
    (saveEntry false "2025-01-01T10:00:00.000Z" "2025-01-01" "first draft"
       midlife).2
  = saveEntry true "2025-01-01T11:00:00.000Z" "2025-01-01" "second draft"
      midlife.
Proof.
  apply (saveEntry_last_writer_wins _ _ _ _ _ _ _ "ann@example.org").
  reflexivity.
Defined.

(** The enumeration built from the cache alone never rejects and lists
    positive word counts only. *)
Theorem offline_index_positive (w : World) :
  match getAllEntries false w with
  | Returned index => ∀ d n, index !! d = Some n → 0 < n
  | Thrown _ => False
  end.
Proof.
  destruct (currentEmail (localStorage w)) as [email|] eqn:Hemail.
  - destruct (getAllEntries_offline w email Hemail) as [index [-> Hidx]].
    intros d n. rewrite Hidx. unfold localCount.
    destruct (localStorage w !! entryKey d) as [content|]; [|done].
    destruct (0 <? countWords content) eqn:Hpos; [|done].
    intros [= <-]. by apply Nat.ltb_lt.
  - unfold getAllEntries. rewrite Hemail. intros d n. by rewrite lookup_empty.
Qed.

(** Sessions: [login] makes [isLoggedIn] true and stores the email, yet an
    empty email leaves a session in which [isLoggedIn] is true while every
    [saveEntry] is rejected; [logout] ends the session but keeps every
    cached entry. *)
Theorem session_lifecycle (email : string) (w : World) :
  isLoggedIn (login email w) = true ∧
  currentEmail (localStorage (login email w))
  = (if Js.truthy email then Some email else None) ∧
  (∀ net now d c,
     saveEntry net now d c (login "" w) = (Thrown "Not logged in", login "" w)) ∧
  isLoggedIn (logout w) = false ∧
  currentEmail (localStorage (logout w)) = None ∧
  (∀ d, localStorage (logout w) !! entryKey d = localStorage w !! entryKey d) ∧
  (∀ d, localStorage (login email w) !! entryKey d
        = localStorage w !! entryKey d).
Proof.
  assert (Hemail : ∀ e, currentEmail (localStorage (login e w))
                        = (if Js.truthy e then Some e else None)).
  { intros e. unfold currentEmail, login. cbn [localStorage].
    rewrite lookup_insert_ne by done. by rewrite lookup_insert_eq. }
  repeat split.
  - unfold isLoggedIn, login. cbn [localStorage]. by rewrite lookup_insert_eq.
  - apply Hemail.
  - intros net now d c. unfold saveEntry. by rewrite Hemail.
  - unfold isLoggedIn, logout. cbn [localStorage]. by rewrite lookup_delete_eq.
  - unfold currentEmail, logout. cbn [localStorage].
    rewrite lookup_delete_ne by done. by rewrite lookup_delete_eq.
  - intros d. unfold logout. cbn [localStorage].
    rewrite lookup_delete_ne by (symmetry; apply entryKey_not_flag).
    by rewrite lookup_delete_ne by (symmetry; apply entryKey_not_email).
  - intros d. unfold login. cbn [localStorage].
    rewrite lookup_insert_ne by (symmetry; apply entryKey_not_flag).
    by rewrite lookup_insert_ne by (symmetry; apply entryKey_not_email).
Qed.

(** The cache is not partitioned by user: what one user saved is read back
    and enumerated, from the cache, for the user who logs in next on the
    same storage. *)
Theorem cache_shared_between_users (net : bool) (now d c : string) (w : World)
  (a b : string) :
  currentEmail (localStorage w) = Some a →
  Js.truthy b = true →
  0 < countWords c →
  let w2 := login b (logout (saveEntry net now d c w).2) in
  getEntry false d w2 = (Returned (Some c), w2) ∧
  ∃ index, getAllEntries false w2 = Returned index ∧
           index !! d = Some (countWords c).
Proof.
  intros Ha Hb Hc w2.
  assert (Hemail : currentEmail (localStorage w2) = Some b).
  { unfold w2, currentEmail, login. cbn [localStorage].
    rewrite lookup_insert_ne by done. by rewrite lookup_insert_eq, Hb. }
  assert (Hcache : localStorage w2 !! entryKey d = Some c).
  { unfold w2, login, logout. cbn [localStorage].
    rewrite lookup_insert_ne by (symmetry; apply entryKey_not_flag).
    rewrite lookup_insert_ne by (symmetry; apply entryKey_not_email).
    rewrite lookup_delete_ne by (symmetry; apply entryKey_not_flag).
    rewrite lookup_delete_ne by (symmetry; apply entryKey_not_email).
    rewrite (saveEntry_logged_in _ _ _ _ _ a) by done.
    cbn [snd localStorage]. by rewrite lookup_insert_eq. }
  split.
  - rewrite (getEntry_logged_in _ _ _ b) by done.
    cbn [select_single]. change (String.eqb UNREACHABLE PGRST116) with false.
    cbv iota. by rewrite Hcache.
  - destruct (getAllEntries_offline w2 b Hemail) as [index [Hget Hidx]].
    exists index. split; [done|]. rewrite Hidx. unfold localCount.
    rewrite Hcache. by rewrite (proj2 (Nat.ltb_lt _ _) Hc).
Qed.

Lemma cache_shared_between_users_witness :
  let w2 :=
    login "bob@example.org"
      (logout (saveEntry true "2025-01-01T10:00:00.000Z" "2025-01-01"
                 "dear diary" midlife).2) in
  getEntry false "2025-01-01" w2 = (Returned (Some "dear diary"), w2) ∧
  ∃ index, getAllEntries false w2 = Returned index ∧
           index !! "2025-01-01" = Some (countWords "dear diary").
Proof.
  apply (cache_shared_between_users true _ _ _ _ "ann@example.org");
    [reflexivity | reflexivity | vm_compute; lia].
Defined.

End SyncFacts.

(** ** The local data store of src/index.tsx *)

Module LocalStoreFacts.
Import Journal JournalFacts.

Section WithStringify.
Variable stringify : list Sample → string.

Lemma local_entryKey_inj (d d' : string) : entryKey d = entryKey d' → d = d'.
Proof. unfold entryKey. apply (inj (String.app _)). Qed.

Lemma local_dateKey_of_entryKey (d : string) :
  Js.replace "journal-entry-" "" (entryKey d) = d.
Proof. apply JsFacts.replace_prefix. Qed.

Lemma allKeys_spec (ls : Storage) (key : string) :
  key ∈ allKeys ls ↔ ∃ d, key = entryKey d ∧ is_Some (ls !! key).
Proof.
  unfold allKeys. rewrite list_elem_of_In, filter_In, <- list_elem_of_In.
  rewrite list_elem_of_fmap. split.
  - intros [[[k v] [-> Hkv]] Hp]. simpl in *.
    apply elem_of_map_to_list in Hkv.
    exists (Js.drop (String.length "journal-entry-") k). split; [|by eauto].
    by apply JsFacts.startsWith_split.
  - intros [d [-> [v Hv]]]. split.
    + exists (entryKey d, v). split; [done|]. by apply elem_of_map_to_list.
    + apply JsFacts.startsWith_app.
Qed.

Lemma addEntry_entryKey (ls : Storage) (m : gmap string nat) (d : string) :
  addEntry stringify ls m (entryKey d) =
  match storedCount stringify ls d with Some n => <[d := n]> m | None => m end.
Proof.
  unfold addEntry, storedCount, getItem. rewrite local_dateKey_of_entryKey.
  destruct (ls !! entryKey d) as [item|]; [|reflexivity]. simpl.
  by destruct (0 <? countWords (itemText stringify item)).
Qed.

Lemma addContent_entryKey (ls : Storage) (m : gmap string string) (d : string) :
  addContent stringify ls m (entryKey d) =
  match storedContent stringify ls d with Some c => <[d := c]> m | None => m end.
Proof.
  unfold addContent, storedContent, getItem. rewrite local_dateKey_of_entryKey.
  destruct (ls !! entryKey d) as [item|]; [|reflexivity]. simpl.
  by destruct (Js.truthy (itemText stringify item)).
Qed.

(** Folding a step that sets, for each key [entryKey d] of the list, the
    value [val d] when there is one. *)
Lemma foldl_entryKeys {V} (step : gmap string V → string → gmap string V)
  (val : string → option V) (keys : list string) :
  (∀ m d, step m (entryKey d) =
          match val d with Some v => <[d := v]> m | None => m end) →
  (∀ key, key ∈ keys → ∃ d, key = entryKey d) →
  ∀ (m : gmap string V) (d : string),
    foldl step m keys !! d =
    if decide (entryKey d ∈ keys)
    then match val d with Some v => Some v | None => m !! d end
    else m !! d.
Proof.
  intros Hstep. induction keys as [|key keys IH]; intros Hk m d; cbn [foldl].
  - by rewrite decide_False by apply not_elem_of_nil.
  - destruct (Hk key) as [d' ->]; [left|].
    rewrite IH by (intros k ?; apply Hk; by right).
    rewrite Hstep.
    destruct (decide (d = d')) as [->|Hne].
    + rewrite (decide_True (P := _ ∈ _ :: _)) by left.
      destruct (val d') as [v|] eqn:Hv.
      * rewrite lookup_insert_eq. by case_decide.
      * by case_decide.
    + assert (Hm : ∀ v, <[d' := v]> m !! d = m !! d)
        by (intros; by apply lookup_insert_ne).
      assert (Hin : entryKey d ∈ entryKey d' :: keys ↔ entryKey d ∈ keys).
      { rewrite elem_of_cons. split; [|by right].
        intros [Heq|]; [|done]. by apply local_entryKey_inj in Heq. }
      destruct (val d'); rewrite ?Hm;
        repeat case_decide; tauto || done.
Qed.

Lemma getAllEntries_lookup (ls : Storage) (d : string) :
  getAllEntries stringify ls !! d = storedCount stringify ls d.
Proof.
  unfold getAllEntries.
  rewrite (foldl_entryKeys _ (storedCount stringify ls)).
  - rewrite lookup_empty. case_decide as Hin; [by destruct (storedCount stringify ls d)|].
    unfold storedCount. destruct (ls !! entryKey d) eqn:Hd; [|done].
    exfalso. apply Hin, allKeys_spec. eauto.
  - apply addEntry_entryKey.
  - intros key [d' [-> _]]%allKeys_spec. by exists d'.
Qed.

Lemma getAllEntriesWithContent_lookup (ls : Storage) (d : string) :
  getAllEntriesWithContent stringify ls !! d = storedContent stringify ls d.
Proof.
  unfold getAllEntriesWithContent.
  rewrite (foldl_entryKeys _ (storedContent stringify ls)).
  - rewrite lookup_empty. case_decide as Hin; [by destruct (storedContent stringify ls d)|].
    unfold storedContent. destruct (ls !! entryKey d) eqn:Hd; [|done].
    exfalso. apply Hin, allKeys_spec. eauto.
  - apply addContent_entryKey.
  - intros key [d' [-> _]]%allKeys_spec. by exists d'.
Qed.

Lemma storedCount_saveEntry (d d' c : string) (ls : Storage) :
  storedCount stringify (saveEntry d c ls) d' =
  if decide (d = d')
  then if 0 <? countWords c then Some (countWords c) else None
  else storedCount stringify ls d'.
Proof.
  unfold storedCount, saveEntry.
  destruct (0 <? countWords c) eqn:Hc; case_decide as Hd; subst.
  - rewrite lookup_insert_eq. simpl. by rewrite Hc.
  - by rewrite lookup_insert_ne by (intros ?%local_entryKey_inj; done).
  - by rewrite lookup_delete_eq.
  - by rewrite lookup_delete_ne by (intros ?%local_entryKey_inj; done).
Qed.

Lemma storedCount_saveHistory (d d' : string) (h : list Sample) (ls : Storage) :
  storedCount stringify (saveWordCountHistory d h ls) d' = storedCount stringify ls d'.
Proof.
  unfold storedCount, saveWordCountHistory.
  by rewrite lookup_insert_ne by apply historyKey_not_entryKey.
Qed.


(** Saving and reading back in the local store: text with at least one
    word is read back as it was saved, text without a word removes the
    item, so that the read gives [null]; the entries of the other date keys
    and every history are left alone. *)
Theorem local_save_then_get (d d' c : string) (ls : Storage) :
  getEntry stringify d (saveEntry d c ls)
  = (if 0 <? countWords c then Some c else None) ∧
  (d ≠ d' →
   getEntry stringify d' (saveEntry d c ls) = getEntry stringify d' ls) ∧
  getWordCountHistory d' (saveEntry d c ls) = getWordCountHistory d' ls.
Proof.
  split; [|split].
  - unfold getEntry, getItem, saveEntry.
    destruct (0 <? countWords c).
    + by rewrite lookup_insert_eq.
    + by rewrite lookup_delete_eq.
  - intros Hne. unfold getEntry, getItem, saveEntry.
    destruct (0 <? countWords c).
    + by rewrite lookup_insert_ne by (intros ?%local_entryKey_inj; done).
    + by rewrite lookup_delete_ne by (intros ?%local_entryKey_inj; done).
  - apply getWordCountHistory_saveEntry.
Qed.

(** The index after a save is the index before it with the date key set
    to the new word count, or removed when the text has no word. *)
Theorem local_index_after_save (d c : string) (ls : Storage) :
  getAllEntries stringify (saveEntry d c ls) =
  if 0 <? countWords c
  then <[d := countWords c]> (getAllEntries stringify ls)
  else delete d (getAllEntries stringify ls).
Proof.
  apply map_eq. intros d'.
  rewrite getAllEntries_lookup, storedCount_saveEntry.
  destruct (0 <? countWords c); case_decide as Hd; subst.
  - by rewrite lookup_insert_eq.
  - by rewrite lookup_insert_ne, getAllEntries_lookup.
  - by rewrite lookup_delete_eq.
  - by rewrite lookup_delete_ne, getAllEntries_lookup.
Qed.

(** Every date key of the index has a positive word count, the one of the
    content that [getEntry] reads, and the same content is in the map that
    search and export use. *)
Theorem local_index_sound (ls : Storage) (d : string) :
  match getAllEntries stringify ls !! d with
  | Some n =>
      0 < n ∧
      countWords <$> getEntry stringify d ls = Some n ∧
      getAllEntriesWithContent stringify ls !! d = getEntry stringify d ls
  | None =>
      match getEntry stringify d ls with
      | Some c => countWords c = 0
      | None => True
      end
  end.
Proof.
  rewrite getAllEntries_lookup, getAllEntriesWithContent_lookup.
  unfold storedCount, storedContent, getEntry, getItem.
  destruct (ls !! entryKey d) as [item|]; [|done]. simpl.
  destruct (0 <? countWords (itemText stringify item)) eqn:Hn.
  - apply Nat.ltb_lt in Hn. split; [done|]. split; [done|].
    by rewrite countWords_pos_truthy.
  - apply Nat.ltb_ge in Hn. lia.
Qed.

(** The [entries] state of [JournalView] stays the index of the store: on
    a store whose history of the date key can be read, if [entries] is the
    index before a save, it is the index after it. *)
Theorem JournalView_entries_in_sync (now1 now2 : Z) (d text : string) (v : View) :
  readable d (storage v) →
  entries v = getAllEntries stringify (storage v) →
  entries (JournalView_saveEntry now1 now2 d text v)
  = getAllEntries stringify (storage (JournalView_saveEntry now1 now2 d text v)).
Proof.
  intros Hread Hsync. apply map_eq. intros d'.
  rewrite getAllEntries_lookup.
  assert (Hread' : readable d (saveEntry d text (storage v)))
    by (unfold readable; by rewrite getWordCountHistory_saveEntry).
  unfold JournalView_saveEntry.
  rewrite (recordHistory_readable _ _ _ _ _ Hread'). cbn [storage entries].
  assert (Hstored : ∀ ls',
    (ls' = saveEntry d text (storage v) ∨
     ∃ h, ls' = saveWordCountHistory d h (saveEntry d text (storage v))) →
    storedCount stringify ls' d'
    = storedCount stringify (saveEntry d text (storage v)) d').
  { intros ls' [->|[h ->]]; [done | apply storedCount_saveHistory]. }
  rewrite Hstored, storedCount_saveEntry.
  - rewrite Hsync.
    destruct (0 <? countWords text); case_decide as Hd; subst.
    + by rewrite lookup_insert_eq.
    + by rewrite lookup_insert_ne, getAllEntries_lookup.
    + by rewrite lookup_delete_eq.
    + by rewrite lookup_delete_ne, getAllEntries_lookup.
  - destruct (0 <? countWords text); [|right; eauto]. cbv zeta.
    destruct (lastPoint _) as [p|]; [|right; eauto].
    destruct (wordCount p =? countWords text); [by left | right; eauto].
Qed.

End WithStringify.


Lemma JournalView_entries_in_sync_witness :
  entries (JournalView_saveEntry 9000 9500 "2025-01-02" "a new day" written)
  = getAllEntries (λ _, "[]")
      (storage (JournalView_saveEntry 9000 9500 "2025-01-02" "a new day" written)).
Proof.
  apply (JournalView_entries_in_sync (λ _, "[]")); [reflexivity|].
  by vm_compute.
Defined.

End LocalStoreFacts.

(** ** The series of word counts over several saves *)

Module SeriesFacts.
Import Journal JournalFacts.
Import DataStore (Outcome, Returned, Thrown, isThrown).

(** The storage a save leaves is the one [dataStore.saveEntry] left, with
    at most the history item of the date key written over. *)
Lemma storage_after_save (now1 now2 : Z) (d text : string) (v : View) :
  storage (JournalView_saveEntry now1 now2 d text v)
  = saveEntry d text (storage v) ∨
  ∃ h, storage (JournalView_saveEntry now1 now2 d text v)
       = saveWordCountHistory d h (saveEntry d text (storage v)).
Proof.
  unfold JournalView_saveEntry, recordHistory.
  destruct (0 <? countWords text); [|right; eauto].
  destruct (getWordCountHistory d _) as [data|e]; [|by left].
  cbv zeta. destruct (match lastPoint _ with Some _ => _ | None => _ end);
    [right; eauto | by left].
Qed.

Lemma series_other_key (now1 now2 : Z) (d d' text : string) (v : View) :
  d ≠ d' →
  series d' (JournalView_saveEntry now1 now2 d text v) = series d' v.
Proof.
  intros Hne. unfold series.
  assert (Hh : ∀ h ls, getWordCountHistory d' (saveWordCountHistory d h ls)
                       = getWordCountHistory d' ls).
  { intros h ls. unfold getWordCountHistory, saveWordCountHistory.
    rewrite lookup_insert_ne; [done|].
    unfold historyKey. intros Heq. by apply (inj (String.app _)) in Heq. }
  destruct (storage_after_save now1 now2 d text v) as [->|[h ->]].
  - by rewrite getWordCountHistory_saveEntry.
  - by rewrite Hh, getWordCountHistory_saveEntry.
Qed.

(** On a store whose history of the date key can be read: after a save the
    series of the date key ends with the word count of the saved text, or
    is empty when the text has no word; the series of the other date keys
    are untouched. *)
Theorem series_tracks_count (now1 now2 : Z) (d d' text : string) (v : View) :
  readable d (storage v) →
  (if 0 <? countWords text
   then wordCount <$> lastPoint (series d (JournalView_saveEntry now1 now2 d text v))
        = Some (countWords text)
   else series d (JournalView_saveEntry now1 now2 d text v) = []) ∧
  (if decide (d = d') then True
   else series d' (JournalView_saveEntry now1 now2 d text v) = series d' v).
Proof.
  intros Hread. split.
  - destruct (series_after_save now1 now2 d text v Hread) as [_ ->]. cbv zeta.
    destruct (0 <? countWords text); [|done].
    destruct (lastPoint (series d v)) as [p|] eqn:Hlast; [|done].
    destruct (wordCount p =? countWords text) eqn:Hp.
    + apply Nat.eqb_eq in Hp. rewrite Hlast. simpl. by rewrite Hp.
    + by rewrite lastPoint_snoc.
  - case_decide; [done|]. by apply series_other_key.
Qed.

Lemma series_tracks_count_witness :
  let v1 := JournalView_saveEntry 9000 9500 "2025-01-02" "a new day" written in
  (if 0 <? countWords "a new day"
   then wordCount <$> lastPoint (series "2025-01-02" v1)
        = Some (countWords "a new day")
   else series "2025-01-02" v1 = []) ∧
  (if decide ("2025-01-02" = "2025-01-01") then True
   else series "2025-01-01" v1 = series "2025-01-01" written).
Proof. intros v1. apply series_tracks_count. reflexivity. Defined.

Lemma chronological_snoc (h : list Sample) (p q : Sample) :
  chronological (h ++ [p]) → (timestamp p <= timestamp q)%Z →
  chronological ((h ++ [p]) ++ [q]).
Proof.
  induction h as [|a h IH]; intros Hh Hpq; [by simpl|].
  destruct h as [|b h]; simpl in *; [tauto|].
  destruct Hh as [Hab Hh]. split; [done|]. by apply IH.
Qed.

(** Well-formed series stay well-formed: on a store whose history of the
    date key can be read, when the clock does not run backwards (the two
    readings of [Date.now()] are in order and not before the last recorded
    sample), a save keeps the series chronological, and keeps it either
    empty or starting with a zero sample that is followed by at least one
    more sample. *)
Theorem series_well_formed (now1 now2 : Z) (d text : string) (v : View) :
  readable d (storage v) →
  (now1 <= now2)%Z →
  (∀ p, lastPoint (series d v) = Some p → (timestamp p <= now2)%Z) →
  wellFormed (series d v) →
  wellFormed (series d (JournalView_saveEntry now1 now2 d text v)).
Proof.
  intros Hread Hclock Hpast [Hchron Hshape].
  destruct (series_after_save now1 now2 d text v Hread) as [_ ->]. cbv zeta.
  destruct (0 <? countWords text); [|by split; [|left]].
  destruct (lastPoint (series d v)) as [p|] eqn:Hlast.
  - destruct (wordCount p =? countWords text); [by split|].
    apply lastPoint_Some_inv in Hlast as Hh. destruct Hh as [h0 Hh].
    split.
    + rewrite Hh in Hchron |- *. apply chronological_snoc; [done|].
      simpl. by apply Hpast.
    + right. destruct Hshape as [Hnil|[Hlen Hhead]].
      * rewrite Hnil in Hh. by destruct h0.
      * rewrite length_app. split; [lia|].
        by destruct (series d v).
  - split; [simpl; split; [lia|done]|].
    right. simpl. split; [lia|done].
Qed.

Lemma series_well_formed_witness :
  wellFormed
    (series "2025-01-01"
       (JournalView_saveEntry 9000 9500 "2025-01-01" "hello brave new world"
          written)).
Proof.
  apply series_well_formed.
  - reflexivity.
  - lia.
  - intros p Hp. vm_compute in Hp. injection Hp as <-. simpl. lia.
  - split.
    + vm_compute. split; [intros H; discriminate H | exact I].
    + right. vm_compute. split; [apply le_n | reflexivity].
Defined.

End SeriesFacts.

(** ** The streak calculator *)

Module StreaksFacts.
Import Streaks.
Local Open Scope Z_scope.

Example dayNumber_samples :
  dayNumber 1970 1 1 = 0 ∧ dayNumber 2025 1 1 = 20089 ∧
  dayNumber 2025 3 30 = 20177 ∧ dayNumber 2024 2 29 = 19782 ∧
  dayNumber 2025 10 26 = 20387.
Proof. by vm_compute. Qed.

Example streaks_utc :
  let D := dayNumber 2025 1 10 in
  calculateStreaks utc D [D; D - 1; D - 2]
  = Some {| currentStreak := 3; longestStreak := 3 |} ∧
  calculateStreaks utc D [D - 6; D; D - 1; D - 2]
  = Some {| currentStreak := 3; longestStreak := 3 |} ∧
  calculateStreaks utc D [D - 1; D - 2]
  = Some {| currentStreak := 0; longestStreak := 2 |}.
Proof. by vm_compute. Qed.

Example streaks_utcPlus1 :
  let D := dayNumber 2025 1 10 in
  calculateStreaks utcPlus1 D [D; D - 1; D - 2]
  = Some {| currentStreak := 2; longestStreak := 3 |}.
Proof. by vm_compute. Qed.

Example streaks_london :
  calculateStreaks london2025 (dayNumber 2025 3 31) [dayNumber 2025 3 30]
  = Some {| currentStreak := 2; longestStreak := 1 |}.
Proof. by vm_compute. Qed.


(** *** Arithmetic of days *)

Lemma MS_PER_DAY_pos : 0 < MS_PER_DAY.
Proof. reflexivity. Qed.

Lemma roundDays_parse (tz : TimeZone) (a b : Z) :
  steady tz → roundDays (parseKey tz b - parseKey tz a) = b - a.
Proof.
  intros Hs. specialize (Hs a b).
  unfold roundDays, parseKey, localMidnight.
  pose proof MS_PER_DAY_pos as HD.
  replace (2 * (b * MS_PER_DAY - tz b - (a * MS_PER_DAY - tz a)) + MS_PER_DAY)
    with ((b - a) * (2 * MS_PER_DAY) + (MS_PER_DAY + 2 * (tz a - tz b))) by lia.
  rewrite Z.div_add_l by lia.
  rewrite Z.div_small by lia. lia.
Qed.

Lemma parseKey_lt (tz : TimeZone) (a b : Z) :
  steady tz → a < b → parseKey tz a < parseKey tz b.
Proof.
  intros Hs Hab. specialize (Hs a b).
  unfold parseKey, localMidnight. pose proof MS_PER_DAY_pos. nia.
Qed.

Lemma parseKey_leb (tz : TimeZone) (a b : Z) :
  steady tz → (parseKey tz a <=? parseKey tz b) = (a <=? b).
Proof.
  intros Hs. destruct (Z.leb_spec a b) as [Hab|Hab].
  - apply Z.leb_le. destruct (decide (a = b)) as [->|]; [lia|].
    apply Z.lt_le_incl, parseKey_lt; [done | lia].
  - apply Z.leb_gt. by apply parseKey_lt.
Qed.

(** *** Sorting *)

Lemma insertTime_map (tz : TimeZone) (x : Z) (l : list Z) :
  steady tz →
  insertTime (parseKey tz x) (List.map (parseKey tz) l)
  = List.map (parseKey tz) (insertTime x l).
Proof.
  intros Hs. induction l as [|y l IH]; [done|].
  cbn [List.map insertTime]. rewrite parseKey_leb by done.
  destruct (x <=? y); [done|]. cbn [List.map]. by rewrite IH.
Qed.

Lemma sortTimes_map (tz : TimeZone) (l : list Z) :
  steady tz →
  sortTimes (List.map (parseKey tz) l) = List.map (parseKey tz) (sortTimes l).
Proof.
  intros Hs. induction l as [|x l IH]; [done|].
  cbn [List.map sortTimes foldr]. fold (sortTimes (List.map (parseKey tz) l)).
  fold (sortTimes l). by rewrite IH, insertTime_map.
Qed.

Lemma insertTime_perm (x : Z) (l : list Z) : insertTime x l ≡ₚ x :: l.
Proof.
  induction l as [|y l IH]; [done|]. simpl.
  destruct (x <=? y); [done|]. rewrite IH. apply Permutation_swap.
Qed.

Lemma sortTimes_perm (l : list Z) : sortTimes l ≡ₚ l.
Proof.
  induction l as [|x l IH]; [done|].
  cbn [sortTimes foldr]. fold (sortTimes l). by rewrite insertTime_perm, IH.
Qed.

Lemma insertTime_sorted (x : Z) (l : list Z) :
  x ∉ l →
  StronglySorted Z.lt l → StronglySorted Z.lt (insertTime x l).
Proof.
  intros Hx Hl. induction Hl as [|y l Hl IH Hy]; simpl.
  - repeat constructor.
  - apply not_elem_of_cons in Hx as [Hxy Hx].
    destruct (Z.leb_spec x y) as [Hle|Hgt].
    + constructor; [by constructor|].
      constructor; [lia|]. eapply Forall_impl; [exact Hy|]. simpl. lia.
    + constructor; [by apply IH|].
      rewrite insertTime_perm. constructor; [lia | done].
Qed.

Lemma sortTimes_sorted (l : list Z) :
  NoDup l → StronglySorted Z.lt (sortTimes l).
Proof.
  induction 1 as [|x l Hx Hl IH]; [constructor|].
  cbn [sortTimes foldr]. fold (sortTimes l).
  apply insertTime_sorted; [|done]. by rewrite sortTimes_perm.
Qed.


(** *** The longest streak *)

Lemma runEndingAt_one (seen : list Z) (d : Z) :
  d ∈ seen → runEndingAt seen d 1.
Proof.
  intros Hd i Hi. assert (i = 0) as -> by lia. by rewrite Z.sub_0_r.
Qed.

Lemma scanned_first (first : Z) : scanned [first] first 1 1.
Proof.
  split; [lia|]. split; [apply runEndingAt_one; left|].
  split; [intros Hin%list_elem_of_singleton; lia|].
  split; [|split; [exists first; apply runEndingAt_one; left|]].
  - intros d n Hrun. destruct (decide (n ≤ 1)%nat) as [|Hn]; [done|].
    pose proof (Hrun 0 ltac:(lia)) as H0%list_elem_of_singleton.
    pose proof (Hrun 1 ltac:(lia)) as H1%list_elem_of_singleton. lia.
  - by intros x ->%list_elem_of_singleton.
Qed.

Lemma scanned_step (seen : list Z) (prev x : Z) (current longest : nat) :
  scanned seen prev current longest →
  prev < x →
  let current' := if x - prev =? 1 then S current else 1%nat in
  let longest' := if (longest <? current')%nat then current' else longest in
  scanned (seen ++ [x]) x current' longest'.
Proof.
  intros (Hcur & Hrun & Hend & Hmax & [dmax Hdmax] & Hle) Hlt current' longest'.
  assert (Hc1 : (1 ≤ current')%nat)
    by (unfold current'; destruct (x - prev =? 1); lia).
  assert (Hl' : (current' ≤ longest' ∧ longest ≤ longest')%nat).
  { unfold longest'. destruct (Nat.ltb_spec longest current'); lia. }
  assert (Hrun' : runEndingAt (seen ++ [x]) x current').
  { intros i Hi. apply elem_of_app.
    destruct (decide (i = 0)) as [->|Hi0].
    - right. rewrite Z.sub_0_r. left.
    - left. unfold current' in Hi.
      destruct (Z.eqb_spec (x - prev) 1) as [Hd|Hd]; [|lia].
      replace (x - i) with (prev - (i - 1)) by lia. apply Hrun. lia. }
  assert (Hend' : (x - Z.of_nat current') ∉ seen ++ [x]).
  { intros [Hin|Hin%list_elem_of_singleton]%elem_of_app; [|lia].
    unfold current' in Hin. destruct (Z.eqb_spec (x - prev) 1) as [Hd|Hd].
    - apply Hend. by replace (prev - Z.of_nat current)
        with (x - Z.of_nat (S current)) by lia.
    - apply Hle in Hin. lia. }
  split; [lia|]. split; [exact Hrun'|]. split; [exact Hend'|].
  split; [|split].
  - intros d n Hn.
    destruct (decide (n = 0)%nat) as [->|Hn0]; [lia|].
    pose proof (Hn 0 ltac:(lia)) as Hd. rewrite Z.sub_0_r in Hd.
    apply elem_of_app in Hd as [Hd|Hd%list_elem_of_singleton].
    + assert (n ≤ longest)%nat; [|lia]. apply (Hmax d).
      intros i Hi. pose proof (Hn i Hi) as Hin.
      apply elem_of_app in Hin as [Hin|Hin%list_elem_of_singleton]; [done|].
      apply Hle in Hd. lia.
    + subst d. destruct (decide (n ≤ current')%nat) as [|Hgt]; [lia|].
      exfalso. apply Hend'. apply Hn. lia.
  - unfold longest'. destruct (Nat.ltb_spec longest current').
    + by exists x.
    + exists dmax. intros i Hi. apply elem_of_app. left. by apply Hdmax.
  - intros y [Hy|Hy%list_elem_of_singleton]%elem_of_app; [|lia].
    apply Hle in Hy. lia.
Qed.

Lemma longestFrom_scanned (tz : TimeZone) (rest : list Z) :
  steady tz →
  ∀ (seen : list Z) (prev : Z) (current longest : nat),
    scanned seen prev current longest →
    StronglySorted Z.lt (prev :: rest) →
    ∃ last current',
      scanned (seen ++ rest) last current'
        (longestFrom (parseKey tz prev) (List.map (parseKey tz) rest)
           current longest).
Proof.
  intros Hs. induction rest as [|x rest IH]; intros seen prev current longest Hinv Hsorted.
  - rewrite app_nil_r. simpl. eauto.
  - cbn [List.map longestFrom]. cbv zeta.
    rewrite roundDays_parse by done.
    apply StronglySorted_inv in Hsorted as [Hsorted Hprev].
    apply Forall_cons in Hprev as [Hlt _].
    pose proof (scanned_step seen prev x current longest Hinv Hlt) as Hstep.
    cbv zeta in Hstep.
    destruct (IH _ _ _ _ Hstep Hsorted) as (last & current' & Hfinal).
    exists last, current'. by rewrite <- app_assoc in Hfinal.
Qed.

Lemma runEndingAt_perm (l1 l2 : list Z) (d : Z) (n : nat) :
  l1 ≡ₚ l2 → runEndingAt l1 d n → runEndingAt l2 d n.
Proof. intros Hp Hrun i Hi. rewrite <- Hp. by apply Hrun. Qed.

Lemma longestOf_spec (tz : TimeZone) (entryKeys : list Z) :
  steady tz → NoDup entryKeys → entryKeys ≠ [] →
  let longest := longestOf (sortTimes (List.map (parseKey tz) entryKeys)) in
  (1 ≤ longest)%nat ∧
  (∀ d n, runEndingAt entryKeys d n → (n ≤ longest)%nat) ∧
  (∃ d, runEndingAt entryKeys d longest).
Proof.
  intros Hs Hnd Hne longest. unfold longest.
  rewrite sortTimes_map by done.
  pose proof (sortTimes_perm entryKeys) as Hperm.
  pose proof (sortTimes_sorted entryKeys Hnd) as Hsorted.
  destruct (sortTimes entryKeys) as [|first rest].
  { apply Permutation_nil_l in Hperm. congruence. }
  cbn [List.map longestOf].
  destruct (longestFrom_scanned tz rest Hs [first] first 1 1
              (scanned_first first) Hsorted)
    as (last & current' & (Hcur & _ & _ & Hmax & [d Hd] & _)).
  change ([first] ++ rest) with (first :: rest) in *.
  split; [lia|]. split.
  - intros d' n Hrun. apply (Hmax d'). by apply (runEndingAt_perm entryKeys).
  - exists d. by apply (runEndingAt_perm (first :: rest)).
Qed.


(** *** The current streak *)

Lemma has_spec (dateSet : list Z) (key : Z) :
  has dateSet key = true ↔ key ∈ dateSet.
Proof.
  unfold has. rewrite existsb_exists. split.
  - intros [x [Hx ->%Z.eqb_eq]]. by apply list_elem_of_In.
  - intros Hin. exists key. split; [by apply list_elem_of_In | apply Z.eqb_refl].
Qed.

Lemma runEndingAt_S (dateSet : list Z) (d : Z) (n : nat) :
  d ∈ dateSet → runEndingAt dateSet (d - 1) n → runEndingAt dateSet d (S n).
Proof.
  intros Hd Hrun i Hi. destruct (decide (i = 0)) as [->|Hi0].
  - by rewrite Z.sub_0_r.
  - replace (d - i) with (d - 1 - (i - 1)) by lia. apply Hrun. lia.
Qed.

Lemma currentFrom_Some (tz : TimeZone) (c : Z) (dateSet : list Z) (fuel : nat) :
  uniform tz c →
  ∀ (day : Z) (acc r : nat),
    currentFrom fuel tz dateSet day acc = Some r →
    ∃ n, r = (acc + n)%nat ∧
         runEndingAt dateSet (day + c) n ∧
         (day + c - Z.of_nat n) ∉ dateSet.
Proof.
  intros Hu. induction fuel as [|fuel IH]; intros day acc r; [done|].
  cbn [currentFrom]. rewrite Hu.
  destruct (has dateSet (day + c)) eqn:Hhas.
  - intros (n & -> & Hrun & Hend)%IH. apply has_spec in Hhas.
    exists (S n). split; [lia|]. split.
    + apply runEndingAt_S; [done|].
      by replace (day + c - 1) with (day - 1 + c) by lia.
    + by replace (day + c - Z.of_nat (S n))
        with (day - 1 + c - Z.of_nat n) by lia.
  - intros [= <-]. exists 0%nat. split; [lia|]. split.
    + intros i Hi. lia.
    + rewrite Z.sub_0_r. intros Hin%has_spec. congruence.
Qed.

Lemma currentFrom_None (tz : TimeZone) (c : Z) (dateSet : list Z) (fuel : nat) :
  uniform tz c →
  ∀ (day : Z) (acc : nat),
    currentFrom fuel tz dateSet day acc = None →
    runEndingAt dateSet (day + c) fuel.
Proof.
  intros Hu. induction fuel as [|fuel IH]; intros day acc.
  - intros _ i Hi. lia.
  - cbn [currentFrom]. rewrite Hu.
    destruct (has dateSet (day + c)) eqn:Hhas; [|done].
    intros Hnone%IH. apply has_spec in Hhas.
    apply runEndingAt_S; [done|].
    by replace (day + c - 1) with (day - 1 + c) by lia.
Qed.

(** A run is no longer than the set is large. *)
Lemma runEndingAt_length (dateSet : list Z) (d : Z) (n : nat) :
  runEndingAt dateSet d n → (n ≤ List.length dateSet)%nat.
Proof.
  intros Hrun.
  set (l := (λ i : nat, d - Z.of_nat i) <$> seq 0 n).
  assert (Hlen : List.length l = n) by (unfold l; by rewrite length_fmap, length_seq).
  rewrite <- Hlen. apply submseteq_length, NoDup_submseteq.
  - unfold l. apply NoDup_fmap_2; [|apply NoDup_seq].
    intros i j Hij. lia.
  - intros x [i [-> Hi%elem_of_seq]]%list_elem_of_fmap.
    apply Hrun. lia.
Qed.

Lemma currentFrom_terminates (tz : TimeZone) (c : Z) (dateSet : list Z)
  (day : Z) :
  uniform tz c →
  ∃ r, currentFrom (S (2 * List.length dateSet)) tz dateSet day 0 = Some r.
Proof.
  intros Hu.
  destruct (currentFrom _ tz dateSet day 0) as [r|] eqn:Hcur; [eauto|].
  apply (currentFrom_None tz c) in Hcur; [|done].
  apply runEndingAt_length in Hcur. lia.
Qed.

(** *** Zones *)

Lemma fixed_offset_uniform (tz : TimeZone) (offset : Z) :
  (∀ day, tz day = offset) →
  - MS_PER_DAY < offset < MS_PER_DAY →
  steady tz ∧ uniform tz (if 0 <? offset then -1 else 0).
Proof.
  intros Htz Hoff. pose proof MS_PER_DAY_pos as HD. split.
  - intros a b. rewrite !Htz. lia.
  - intros day. unfold toDateKey, localMidnight. rewrite Htz.
    destruct (Z.ltb_spec 0 offset).
    + replace (day * MS_PER_DAY - offset)
        with ((day + -1) * MS_PER_DAY + (MS_PER_DAY - offset)) by lia.
      rewrite Z.div_add_l by lia. rewrite Z.div_small by lia. lia.
    + replace (day * MS_PER_DAY - offset)
        with (day * MS_PER_DAY + (- offset)) by lia.
      rewrite Z.div_add_l by lia. rewrite Z.div_small by lia. lia.
Qed.

Lemma newYork2025_steady : steady newYork2025.
Proof.
  intros a b. unfold newYork2025.
  destruct (_ && _), (_ && _); by vm_compute.
Qed.

Lemma newYork2025_uniform : uniform newYork2025 0.
Proof.
  intros day. unfold toDateKey, localMidnight, newYork2025.
  destruct (_ && _).
  - replace (day * MS_PER_DAY - -14400000)
      with (day * MS_PER_DAY + 14400000) by lia.
    rewrite Z.div_add_l by done.
    rewrite Z.div_small by (unfold MS_PER_DAY; lia). lia.
  - replace (day * MS_PER_DAY - -18000000)
      with (day * MS_PER_DAY + 18000000) by lia.
    rewrite Z.div_add_l by done.
    rewrite Z.div_small by (unfold MS_PER_DAY; lia). lia.
Qed.


(** *** The streaks *)

Lemma toDateKey_localMidnight (tz : TimeZone) (day : Z) :
  - MS_PER_DAY < tz day < MS_PER_DAY →
  toDateKey (localMidnight tz day) = if 0 <? tz day then day - 1 else day.
Proof.
  intros Hoff. pose proof MS_PER_DAY_pos as HD.
  unfold toDateKey, localMidnight. destruct (Z.ltb_spec 0 (tz day)).
  - replace (day * MS_PER_DAY - tz day)
      with ((day - 1) * MS_PER_DAY + (MS_PER_DAY - tz day)) by lia.
    rewrite Z.div_add_l by lia. rewrite Z.div_small by lia. lia.
  - replace (day * MS_PER_DAY - tz day)
      with (day * MS_PER_DAY + (- tz day)) by lia.
    rewrite Z.div_add_l by lia. rewrite Z.div_small by lia. lia.
Qed.

(** C5, evaluated on the code: in Europe/London on 31 March 2025, with the
    single entry of 30 March, the walk tests the key of 30 March twice (it
    is the UTC date of local midnight of the 31st, in summer time, and of
    the 30th, in winter time) and the current streak is 2, although today
    has no entry and no two consecutive days have one. *)
Theorem currentStreak_counts_a_day_twice :
  let today := dayNumber 2025 3 31 in
  let entryKeys := [dayNumber 2025 3 30] in
  calculateStreaks london2025 today entryKeys
  = Some {| currentStreak := 2; longestStreak := 1 |} ∧
  toDateKey (localMidnight london2025 today) = dayNumber 2025 3 30 ∧
  toDateKey (localMidnight london2025 (today - 1)) = dayNumber 2025 3 30 ∧
  ¬ runEndingAt entryKeys today 1 ∧
  ¬ runEndingAt entryKeys (dayNumber 2025 3 30) 2.
Proof.
  cbv zeta. split; [by vm_compute|]. split; [by vm_compute|].
  split; [by vm_compute|]. split.
  - intros Hrun. specialize (Hrun 0 ltac:(lia)).
    apply list_elem_of_singleton in Hrun. vm_compute in Hrun. discriminate.
  - intros Hrun. specialize (Hrun 1 ltac:(lia)).
    apply list_elem_of_singleton in Hrun. vm_compute in Hrun. discriminate.
Qed.

(** C10, evaluated on the code: in Europe/London the current streak exceeds
    the longest streak, on 31 March 2025 with the single entry of 30 March
    (2 against 1), and on 27 October 2025 with the entries of 27 and 25
    October, which are not consecutive (2 against 1). *)
Theorem currentStreak_exceeds_longest :
  (∃ s, calculateStreaks london2025 (dayNumber 2025 3 31) [dayNumber 2025 3 30]
        = Some s ∧ (longestStreak s < currentStreak s)%nat) ∧
  (∃ s, calculateStreaks london2025 (dayNumber 2025 10 27)
          [dayNumber 2025 10 27; dayNumber 2025 10 25]
        = Some s ∧ (longestStreak s < currentStreak s)%nat).
Proof.
  split.
  - exists {| currentStreak := 2; longestStreak := 1 |}.
    split; [by vm_compute | simpl; lia].
  - exists {| currentStreak := 2; longestStreak := 1 |}.
    split; [by vm_compute | simpl; lia].
Qed.

(** Where the date key of local midnight is the local day shifted by the
    same amount every day, [calculateStreaks] returns, and the current
    streak is the length of the run of consecutive date keys that ends at
    the date key of today's local midnight: all of them have an entry, the
    one before them has none. *)
Theorem currentStreak_is_run (tz : TimeZone) (c today : Z) (entryKeys : list Z) :
  uniform tz c →
  ∃ s, calculateStreaks tz today entryKeys = Some s ∧
       runEndingAt entryKeys (today + c) (currentStreak s) ∧
       (today + c - Z.of_nat (currentStreak s)) ∉ entryKeys.
Proof.
  intros Hu. unfold calculateStreaks.
  destruct entryKeys as [|k ks] eqn:Hkeys.
  - eexists. split; [reflexivity|]. simpl. split.
    + intros i Hi. lia.
    + apply not_elem_of_nil.
  - rewrite <- Hkeys.
    destruct (currentFrom_terminates tz c entryKeys today Hu) as [r Hr].
    rewrite Hr. eexists. split; [reflexivity|]. simpl.
    destruct (currentFrom_Some tz c entryKeys _ Hu _ _ _ Hr) as (n & -> & Hrun & Hend).
    by split.
Qed.

Lemma currentStreak_is_run_witness :
  let D := dayNumber 2025 3 12 in
  ∃ s, calculateStreaks newYork2025 D [D - 3; D; D - 1; D - 5] = Some s ∧
       runEndingAt [D - 3; D; D - 1; D - 5] (D + 0) (currentStreak s) ∧
       (D + 0 - Z.of_nat (currentStreak s)) ∉ [D - 3; D; D - 1; D - 5].
Proof. apply currentStreak_is_run. exact newYork2025_uniform. Defined.

(** Where moreover the offset never changes by half a day or more, and the
    date keys are distinct: the longest streak is the length of a longest
    run of consecutive date keys with an entry (no run is longer, and one
    run is that long unless there is no entry), and the current streak
    never exceeds it. *)
Theorem longestStreak_is_longest_run (tz : TimeZone) (c today : Z)
  (entryKeys : list Z) :
  steady tz → uniform tz c → NoDup entryKeys →
  ∃ s, calculateStreaks tz today entryKeys = Some s ∧
       (∀ d n, runEndingAt entryKeys d n → (n ≤ longestStreak s)%nat) ∧
       (if decide (entryKeys = []) then longestStreak s = 0%nat
        else ∃ d, runEndingAt entryKeys d (longestStreak s)) ∧
       (currentStreak s ≤ longestStreak s)%nat.
Proof.
  intros Hs Hu Hnd. unfold calculateStreaks.
  destruct entryKeys as [|k ks] eqn:Hkeys.
  - eexists. split; [reflexivity|]. simpl. split; [|by split].
    intros d n Hrun. apply runEndingAt_length in Hrun. simpl in Hrun. lia.
  - rewrite <- Hkeys. rewrite <- Hkeys in Hnd.
    assert (Hne : entryKeys ≠ []) by (rewrite Hkeys; discriminate).
    destruct (currentFrom_terminates tz c entryKeys today Hu) as [r Hr].
    rewrite Hr. eexists. split; [reflexivity|]. cbn [currentStreak longestStreak].
    destruct (longestOf_spec tz entryKeys Hs Hnd Hne) as (_ & Hmax & Hex).
    cbv zeta in Hmax, Hex.
    split; [exact Hmax|]. split.
    + rewrite decide_False by done. exact Hex.
    + destruct (currentFrom_Some tz c entryKeys _ Hu _ _ _ Hr) as (n & -> & Hrun & _).
      by apply (Hmax (today + c)).
Qed.

Lemma longestStreak_is_longest_run_witness :
  let D := dayNumber 2025 3 12 in
  let entryKeys := [D - 3; D; D - 1; D - 5; D - 4] in
  ∃ s, calculateStreaks newYork2025 D entryKeys = Some s ∧
       (∀ d n, runEndingAt entryKeys d n → (n ≤ longestStreak s)%nat) ∧
       (if decide (entryKeys = []) then longestStreak s = 0%nat
        else ∃ d, runEndingAt entryKeys d (longestStreak s)) ∧
       (currentStreak s ≤ longestStreak s)%nat.
Proof.
  apply (longestStreak_is_longest_run newYork2025 0).
  - exact newYork2025_steady.
  - exact newYork2025_uniform.
  - apply (bool_decide_unpack _). by vm_compute.
Defined.

(** When the offset in force at local midnight is east of UTC today and not
    east of UTC yesterday (the day after the clocks went forward, in a zone
    that is on UTC in winter), local midnight of today and of yesterday
    fall on the same UTC date: with a single entry, on that date key, the
    current streak is 2 and the longest streak is 1. *)
Theorem clock_change_counts_a_key_twice (tz : TimeZone) (today : Z) :
  0 < tz today < MS_PER_DAY →
  - MS_PER_DAY < tz (today - 1) <= 0 →
  - MS_PER_DAY < tz (today - 2) < MS_PER_DAY →
  calculateStreaks tz today [today - 1]
  = Some {| currentStreak := 2; longestStreak := 1 |}.
Proof.
  intros H0 H1 H2. unfold calculateStreaks.
  cbn [List.length Nat.mul Nat.add currentFrom List.map sortTimes foldr
       insertTime longestOf longestFrom].
  rewrite (toDateKey_localMidnight tz today) by lia.
  rewrite (proj2 (Z.ltb_lt 0 (tz today))) by lia.
  assert (Hhas : has [today - 1] (today - 1) = true)
    by (apply has_spec; left).
  rewrite Hhas.
  rewrite (toDateKey_localMidnight tz (today - 1)) by lia.
  rewrite (proj2 (Z.ltb_ge 0 (tz (today - 1)))) by lia.
  rewrite Hhas.
  rewrite (toDateKey_localMidnight tz (today - 1 - 1)).
  - assert (Hnot : has [today - 1]
             (if 0 <? tz (today - 1 - 1) then today - 1 - 1 - 1 else today - 1 - 1)
             = false).
    { apply not_true_iff_false. intros Hh%has_spec%list_elem_of_singleton.
      destruct (0 <? tz (today - 1 - 1)); lia. }
    by rewrite Hnot.
  - by replace (today - 1 - 1) with (today - 2) by lia.
Qed.

Lemma clock_change_counts_a_key_twice_witness :
  calculateStreaks london2025 (dayNumber 2025 3 31) [dayNumber 2025 3 31 - 1]
  = Some {| currentStreak := 2; longestStreak := 1 |}.
Proof.
  apply clock_change_counts_a_key_twice; by vm_compute.
Defined.

End StreaksFacts.

(** ** Counting words *)

Module CountWordsFacts.

Lemma append_empty_r (s : string) : s +:+ "" = s.
Proof.
  induction s as [|c s IH]; [done|].
  change (String c s +:+ "") with (String c (s +:+ "")). by rewrite IH.
Qed.

Lemma append_assoc (a b c : string) : (a +:+ b) +:+ c = a +:+ (b +:+ c).
Proof.
  induction a as [|x a IH]; [done|].
  change (String x (a +:+ b) +:+ c = String x (a +:+ (b +:+ c))).
  change (String x ((a +:+ b) +:+ c) = String x (a +:+ (b +:+ c))).
  by rewrite IH.
Qed.

Lemma rev_app_spec (s acc : string) :
  String.rev_app s acc = String.rev s +:+ acc.
Proof.
  unfold String.rev. revert acc. induction s as [|c s IH]; intros acc; [done|].
  cbn [String.rev_app]. rewrite IH, (IH (String c "")).
  by rewrite append_assoc.
Qed.

Lemma rev_cons (c : ascii) (s : string) :
  String.rev (String c s) = String.rev s +:+ String c "".
Proof. unfold String.rev at 1. cbn [String.rev_app]. apply rev_app_spec. Qed.

Lemma rev_append (a b : string) :
  String.rev (a +:+ b) = String.rev b +:+ String.rev a.
Proof.
  induction a as [|x a IH].
  - change ("" +:+ b) with b. change (String.rev "") with "".
    by rewrite append_empty_r.
  - change (String x a +:+ b) with (String x (a +:+ b)).
    by rewrite !rev_cons, IH, append_assoc.
Qed.

Lemma rev_involutive (s : string) : String.rev (String.rev s) = s.
Proof.
  induction s as [|c s IH]; [done|].
  rewrite rev_cons, rev_append, IH. done.
Qed.

Lemma allWhiteSpace_append (a b : string) :
  allWhiteSpace (a +:+ b) = allWhiteSpace a && allWhiteSpace b.
Proof.
  induction a as [|x a IH]; [done|].
  change (String x a +:+ b) with (String x (a +:+ b)).
  cbn [allWhiteSpace]. by rewrite IH, andb_assoc.
Qed.

Lemma allWhiteSpace_rev (s : string) :
  allWhiteSpace (String.rev s) = allWhiteSpace s.
Proof.
  induction s as [|c s IH]; [done|].
  rewrite rev_cons, allWhiteSpace_append, IH. cbn [allWhiteSpace].
  rewrite andb_true_r. apply andb_comm.
Qed.

(** What [trimStart] and [trimEnd] strip is white space. *)
Lemma trimStart_split (s : string) :
  ∃ ws, allWhiteSpace ws = true ∧ s = ws +:+ Js.trimStart s.
Proof.
  induction s as [|c s [ws [Hws Hs]]]; [by exists ""|].
  cbn [Js.trimStart]. destruct (Js.isWhiteSpace c) eqn:Hc.
  - exists (String c ws). split; [by cbn [allWhiteSpace]; rewrite Hc|].
    change (String c ws +:+ Js.trimStart s) with (String c (ws +:+ Js.trimStart s)).
    by rewrite <- Hs.
  - by exists "".
Qed.

Lemma trimEnd_split (s : string) :
  ∃ ws, allWhiteSpace ws = true ∧ s = Js.trimEnd s +:+ ws.
Proof.
  destruct (trimStart_split (String.rev s)) as [ws [Hws Hs]].
  exists (String.rev ws). split; [by rewrite allWhiteSpace_rev|].
  unfold Js.trimEnd. rewrite <- rev_append, <- Hs. by rewrite rev_involutive.
Qed.

Lemma wordStarts_leading (ws s : string) (inWord : bool) :
  allWhiteSpace ws = true → ws ≠ "" →
  wordStarts inWord (ws +:+ s) = wordStarts false s.
Proof.
  revert inWord. induction ws as [|c ws IH]; intros inWord Hws Hne; [done|].
  cbn [allWhiteSpace] in Hws. apply andb_true_iff in Hws as [Hc Hws].
  change (String c ws +:+ s) with (String c (ws +:+ s)).
  cbn [wordStarts]. rewrite Hc.
  destruct ws as [|d ws]; [done|]. by apply IH.
Qed.

Lemma wordStarts_trailing (s ws : string) (inWord : bool) :
  allWhiteSpace ws = true →
  wordStarts inWord (s +:+ ws) = wordStarts inWord s.
Proof.
  intros Hws. revert inWord. induction s as [|c s IH]; intros inWord.
  - change ("" +:+ ws) with ws.
    destruct ws as [|d ws]; [done|].
    rewrite <- (append_empty_r (String d ws)).
    by rewrite wordStarts_leading.
  - change (String c s +:+ ws) with (String c (s +:+ ws)).
    cbn [wordStarts]. by rewrite !IH.
Qed.

Lemma wordStarts_trim (s : string) :
  wordStarts false (Js.trim s) = wordStarts false s.
Proof.
  unfold Js.trim.
  destruct (trimStart_split s) as [ws [Hws Hs]].
  destruct (trimEnd_split (Js.trimStart s)) as [ws' [Hws' Hs']].
  rewrite Hs at 2.
  assert (wordStarts false (ws +:+ Js.trimStart s)
          = wordStarts false (Js.trimStart s)) as ->.
  { destruct ws as [|c ws]; [done|]. by apply wordStarts_leading. }
  rewrite Hs' at 2. by rewrite wordStarts_trailing.
Qed.

Lemma truthy_snoc (cur : string) (c : ascii) :
  Js.truthy (cur +:+ String c "") = true.
Proof. by destruct cur. Qed.

Lemma split_ws_from_count (s cur : string) (in_sep : bool) :
  (in_sep = true → cur = "") →
  List.length (List.filter Js.truthy (Js.split_ws_from in_sep cur s))
  = (if Js.truthy cur then 1 else 0) + wordStarts (Js.truthy cur) s.
Proof.
  revert cur in_sep. induction s as [|c s IH]; intros cur in_sep Hinv.
  - cbn [Js.split_ws_from List.filter wordStarts].
    destruct (Js.truthy cur); simpl; lia.
  - cbn [Js.split_ws_from wordStarts].
    destruct (Js.isWhiteSpace c).
    + destruct in_sep.
      * rewrite (Hinv eq_refl). by rewrite IH.
      * cbn [List.filter]. destruct (Js.truthy cur); cbn [List.length];
          rewrite IH by done; simpl; lia.
    + rewrite IH by done. rewrite truthy_snoc.
      destruct (Js.truthy cur); lia.
Qed.

(** The two ways the sources write [countWords] agree: the extra test of
    the trimmed text in the first version of src/index.tsx changes
    nothing. *)
Theorem countWords_versions_agree (text : string) :
  countWordsChecked text = countWords text.
Proof.
  unfold countWordsChecked, countWords.
  destruct (Js.truthy text); [|done]. cbn [negb]. cbv zeta.
  destruct (Js.trim text) as [|c r] eqn:Htrim; [|done].
  reflexivity.
Qed.

(** [countWords] counts the maximal runs of characters that are not white
    space: one for every character that is not white space and stands at
    the start of the text or after white space. *)
Theorem countWords_counts_runs (text : string) :
  countWords text = wordStarts false text.
Proof.
  unfold countWords. destruct (Js.truthy text) eqn:Ht.
  - cbn [negb]. unfold Js.split_ws.
    rewrite split_ws_from_count by done. cbn [Js.truthy Nat.add].
    apply wordStarts_trim.
  - by destruct text.
Qed.

End CountWordsFacts.

(** ** The analysis does not depend on the case of letters *)

Module CaseFacts.
Import Analyzer.

Lemma toLowerCaseChar_idempotent (c : ascii) :
  Js.toLowerCaseChar (Js.toLowerCaseChar c) = Js.toLowerCaseChar c.
Proof. destruct c as [[] [] [] [] [] [] [] []]; reflexivity. Qed.

Lemma toLowerCase_idempotent (s : string) :
  Js.toLowerCase (Js.toLowerCase s) = Js.toLowerCase s.
Proof.
  induction s as [|c s IH]; [done|].
  cbn [Js.toLowerCase]. by rewrite toLowerCaseChar_idempotent, IH.
Qed.

(** Letter case does not matter to the analysis: a text and its
    lower-casing (so also two texts that differ in case only) get the same
    counts in every subcategory. *)
Theorem analyzeText_ignores_case (text : string) :
  analyzeText (Js.toLowerCase text) = analyzeText text.
Proof. unfold analyzeText. by rewrite toLowerCase_idempotent. Qed.

Example analyzeText_upper :
  analyzeText "I AM Anxious and SCARED today"
  = analyzeText "i am anxious and scared today".
Proof. vm_compute. reflexivity. Qed.

End CaseFacts.
